(** * Loss functions of the 3d-aware-gan-nerfstudio training pipeline

    A shallow embedding of [nerfstudio/model_components/losses.py] and
    [nerfstudio/field_components/activations.py].

    Conventions of the embedding.
    - A floating-point tensor entry is a real number ([R]): the arithmetic of
      the source is read over the reals, so rounding, overflow and nan are not
      represented.  Statements carry the hypotheses under which the torch
      operations are defined on finite values (weights >= 0 under a
      logarithm, sigma > 0 under a division, at least one ray under a mean).
      Where a statement is about rounding or about nan, the function is
      modelled a second time: over an arithmetic that is a parameter, with
      IEEE 754 binary32 as an instance, or with the mean of an empty tensor
      made explicit.
    - A tensor of shape [num_samples] is a [list R]; a leading batch dimension
      is one more level of list; the trailing dimension of size one that the
      source carries on weights, steps and depths is dropped.
    - Integer index tensors are lists of [Z].
    - A Python exception is the left summand of [result]. *)

From Stdlib Require Import String Bool ZArith Reals Lra Lia List Sorted.
From Stdlib Require Import Floats.SpecFloat.
Import ListNotations.
Open Scope R_scope.

(** ** Python exceptions *)

Inductive exn : Type :=
| NotImplementedError (msg : string)
| NameError (name : string)
| AssertionError (msg : string)
| TypeError (msg : string)
| ValueError (msg : string)
| IndexError (msg : string)
| AttributeError (msg : string)
| UnboundLocalError (name : string).

Definition result (A : Type) : Type := (exn + A)%type.

Definition ret {A : Type} (a : A) : result A := inr a.
Definition raise {A : Type} (e : exn) : result A := inl e.

Definition bind {A B : Type} (m : result A) (k : A -> result B) : result B :=
  match m with
  | inl e => inl e
  | inr a => k a
  end.

Notation "x <- m ;; k" := (bind m (fun x => k))
  (at level 61, m at next level, right associativity).

Fixpoint mapM {A B : Type} (f : A -> result B) (l : list A) : result (list B) :=
  match l with
  | [] => ret []
  | a :: rest => b <- f a ;; bs <- mapM f rest ;; ret (b :: bs)
  end.

(** ** Tensor primitives *)

(** Elementwise binary operation on two tensors of the same shape. *)
Fixpoint map2 {A B C : Type} (f : A -> B -> C) (a : list A) (b : list B) : list C :=
  match a, b with
  | x :: a', y :: b' => f x y :: map2 f a' b'
  | _, _ => []
  end.

(** [torch.sum] over one dimension. *)
Fixpoint tsum (l : list R) : R :=
  match l with
  | [] => 0
  | x :: rest => x + tsum rest
  end.

(** [torch.mean] of a tensor with at least one entry (torch returns nan on an
    empty tensor, which the reals do not represent). *)
Definition torch_mean (l : list R) : R := tsum l / INR (length l).

(** [torch.cumsum(y, dim=-1)]. *)
Fixpoint cumsum_from (acc : R) (l : list R) : list R :=
  match l with
  | [] => []
  | x :: rest => (acc + x) :: cumsum_from (acc + x) rest
  end.

Definition cumsum (l : list R) : list R := cumsum_from 0 l.

Definition zeros_like (l : list R) : list R := map (fun _ => 0) l.

(** [torch.searchsorted(seq, v, side="right")] for one value [v] and a sorted
    [seq]: the index [i] with [seq[i-1] <= v < seq[i]]. *)
Fixpoint searchsorted_right (seq : list R) (v : R) : Z :=
  match seq with
  | [] => 0%Z
  | x :: rest => if Rle_dec x v then (1 + searchsorted_right rest v)%Z else 0%Z
  end.

(** [torch.clamp(x, min=lo, max=hi)] on an integer. *)
Definition clampZ (x lo hi : Z) : Z := Z.min (Z.max x lo) hi.

(** One entry of [torch.take_along_dim]: out-of-range indices raise. *)
Definition take1 (src : list R) (i : Z) : result R :=
  if (i <? 0)%Z then raise (IndexError "index out of range")
  else match nth_error src (Z.to_nat i) with
       | Some x => ret x
       | None => raise (IndexError "index out of range")
       end.

Definition take_along_dim (src : list R) (idx : list Z) : result (list R) :=
  mapM (take1 src) idx.

(** ** losses.py *)

Definition EPS : R := 1 / 10000000.

Definition URF_SIGMA_SCALE_FACTOR : R := 3.

Inductive DepthLossType : Type := DS_NERF | URF.

(** [outer], for one ray (leading batch dimensions are treated
    independently by every operation of the body). *)
Definition outer (t0_starts t0_ends t1_starts t1_ends y1 : list R) : result (list R) :=
  let cy1 := zeros_like (firstn 1 y1) ++ cumsum y1 in
  let last_idx := (Z.of_nat (length y1) - 1)%Z in
  let idx_lo := map (fun v => (searchsorted_right t1_starts v - 1)%Z) t0_starts in
  let idx_lo := map (fun i => clampZ i 0 last_idx) idx_lo in
  let idx_hi := map (fun v => searchsorted_right t1_ends v) t0_ends in
  let idx_hi := map (fun i => clampZ i 0 last_idx) idx_hi in
  cy1_lo <- take_along_dim (removelast cy1) idx_lo ;;
  cy1_hi <- take_along_dim (tl cy1) idx_hi ;;
  ret (map2 Rminus cy1_hi cy1_lo).

(** What [outer] yields on identical source and target bins: every bin also
    collects the mass of its right neighbour. *)
Fixpoint with_right_neighbour (y : list R) : list R :=
  match y with
  | [] => []
  | a :: rest =>
      match rest with
      | [] => [a]
      | b :: _ => (a + b) :: with_right_neighbour rest
      end
  end.

(** ** Batched tensors: one row per ray *)

Definition tmap {A B : Type} (f : A -> B) (x : list (list A)) : list (list B) :=
  map (map f) x.

Definition tmap2 {A B C : Type} (f : A -> B -> C) (x : list (list A)) (y : list (list B))
  : list (list C) :=
  map2 (map2 f) x y.

(** [x op d[:, None]]: a per-ray value broadcast along the samples of the ray. *)
Definition tmap_ray {A B C : Type} (f : A -> B -> C) (x : list (list A)) (d : list B)
  : list (list C) :=
  map2 (fun row dr => map (fun v => f v dr) row) x d.

(** [x.sum(-2)] on a tensor of shape [rays, samples, 1]. *)
Definition sum_samples (x : list (list R)) : list R := map tsum x.

Definition Rltb (x y : R) : bool := if Rlt_dec x y then true else false.
Definition Rleb (x y : R) : bool := if Rle_dec x y then true else false.
Definition Rgtb (x y : R) : bool := Rltb y x.
Definition Rgeb (x y : R) : bool := Rleb y x.

(** A boolean mask entry used as a factor. *)
Definition b2R (b : bool) : R := if b then 1 else 0.

(** [RaySamples] and its [Frustums], restricted to the fields read here. *)
Record Frustums : Type := {
  starts : list (list R);
  ends : list (list R)
}.

Record RaySamples : Type := {
  frustums : Frustums;
  spacing_starts : option (list (list R));
  spacing_ends : option (list (list R))
}.

(** ** Depth supervision *)

Definition ds_nerf_depth_loss (weights : list (list R)) (termination_depth : list R)
           (steps lengths : list (list R)) (sigma : R) : R :=
  let depth_mask := map (fun d => Rgtb d 0) termination_depth in
  let loss :=
    tmap2 Rmult
      (tmap2 Rmult
         (tmap (fun w => - ln (w + EPS)) weights)
         (tmap (fun x => exp (- (x ^ 2) / (2 * sigma)))
               (tmap_ray Rminus steps termination_depth)))
      lengths in
  let loss := map2 Rmult (sum_samples loss) (map b2R depth_mask) in
  torch_mean loss.

(** [torch.distributions.normal.Normal(loc, scale).log_prob(value)]. *)
Definition normal_log_prob (loc scale value : R) : R :=
  - ((value - loc) ^ 2) / (2 * scale ^ 2) - ln scale - ln (sqrt (2 * PI)).

(** The local [line_of_sight_loss_near] of [urban_radiance_field_depth_loss],
    after its [.sum(-2)]. *)
Definition line_of_sight_loss_near (weights : list (list R)) (termination_depth : list R)
           (steps : list (list R)) (sigma : R) : list R :=
  let scale := sigma / URF_SIGMA_SCALE_FACTOR in
  let line_of_sight_loss_near_mask :=
    tmap2 andb
      (tmap_ray (fun s d => Rleb s (d + sigma)) steps termination_depth)
      (tmap_ray (fun s d => Rgeb s (d - sigma)) steps termination_depth) in
  let near :=
    tmap (fun x => x ^ 2)
      (tmap2 Rminus weights
         (tmap (fun x => exp (normal_log_prob 0 scale x))
               (tmap_ray Rminus steps termination_depth))) in
  sum_samples (tmap2 (fun m x => b2R m * x) line_of_sight_loss_near_mask near).

(** The local [line_of_sight_loss_empty], after its [.sum(-2)]. *)
Definition line_of_sight_loss_empty (weights : list (list R)) (termination_depth : list R)
           (steps : list (list R)) (sigma : R) : list R :=
  let line_of_sight_loss_empty_mask :=
    tmap_ray (fun s d => Rltb s (d - sigma)) steps termination_depth in
  sum_samples
    (tmap2 (fun m x => b2R m * x) line_of_sight_loss_empty_mask
           (tmap (fun w => w ^ 2) weights)).

Definition urban_radiance_field_depth_loss (weights : list (list R))
           (termination_depth predicted_depth : list R)
           (steps : list (list R)) (sigma : R) : R :=
  let depth_mask := map (fun d => Rgtb d 0) termination_depth in
  let expected_depth_loss :=
    map (fun x => x ^ 2) (map2 Rminus termination_depth predicted_depth) in
  let line_of_sight_loss :=
    map2 Rplus (line_of_sight_loss_near weights termination_depth steps sigma)
               (line_of_sight_loss_empty weights termination_depth steps sigma) in
  let loss :=
    map2 Rmult (map2 Rplus expected_depth_loss line_of_sight_loss) (map b2R depth_mask) in
  torch_mean loss.

(** The Python values that appear as arguments and as module globals. *)
Inductive py_value : Type :=
| PyEnum (member : DepthLossType)
| PyInt (z : Z)
| PyFloat (r : R)
| PyStr (s : string)
| PyTensor (t : list (list (list R)))
| PyObject (name : string)
| PyNone.

(** [v == DepthLossType.<member>]: an [Enum] member equals only itself. *)
Definition py_eq_member (v : py_value) (member : DepthLossType) : bool :=
  match v, member with
  | PyEnum DS_NERF, DS_NERF => true
  | PyEnum URF, URF => true
  | _, _ => false
  end.

Definition depth_loss (weights : list (list R)) (ray_samples : RaySamples)
           (termination_depth predicted_depth : list R) (sigma : R)
           (directions_norm : list R) (is_euclidean : bool)
           (depth_loss_type : py_value) : result R :=
  let termination_depth :=
    if negb is_euclidean then map2 Rmult termination_depth directions_norm
    else termination_depth in
  let steps :=
    tmap (fun x => x / 2)
         (tmap2 Rplus (starts (frustums ray_samples)) (ends (frustums ray_samples))) in
  if py_eq_member depth_loss_type DS_NERF then
    let lengths :=
      tmap2 Rminus (ends (frustums ray_samples)) (starts (frustums ray_samples)) in
    ret (ds_nerf_depth_loss weights termination_depth steps lengths sigma)
  else if py_eq_member depth_loss_type URF then
    ret (urban_radiance_field_depth_loss weights termination_depth predicted_depth
                                         steps sigma)
  else raise (NotImplementedError "Provided depth loss type not implemented.").

(** Shapes of the inputs of a call.  [same_shape x y]: as many rays, and as
    many samples on each ray; [per_ray x d]: one entry of [d] per ray of [x]. *)
Definition same_shape {A B : Type} (x : list (list A)) (y : list (list B)) : Prop :=
  Forall2 (fun a b => length a = length b) x y.

Definition per_ray {A B : Type} (x : list (list A)) (d : list B) : Prop :=
  length d = length x.

Definition nonneg (x : list (list R)) : Prop :=
  Forall (Forall (fun w => 0 <= w)) x.

(** ** The Gaussian-weighted depth loss, ray by ray

    The formula of the depth loss read over rays: a ray is its samples
    (weight, frustum start, frustum end) and its ground-truth depth. *)

Definition tzip {A B : Type} (x : list (list A)) (y : list (list B))
  : list (list (A * B)) :=
  tmap2 pair x y.

Definition rays_of (weights frustum_starts frustum_ends : list (list R))
           (depth : list R) : list (list (R * R * R) * R) :=
  combine (tzip (tzip weights frustum_starts) frustum_ends) depth.

(** [-log(w + eps) * exp(-(step - depth)^2 / (2 sigma)) * bin_width] with
    [step] the frustum midpoint and [bin_width = end - start]. *)
Definition ds_nerf_sample_term (sigma depth : R) (sample : R * R * R) : R :=
  let '(w, s, e) := sample in
  - ln (w + EPS) * exp (- (((s + e) / 2 - depth) ^ 2) / (2 * sigma)) * (e - s).

Definition ds_nerf_ray_sum (sigma : R) (ray : list (R * R * R) * R) : R :=
  tsum (map (ds_nerf_sample_term sigma (snd ray)) (fst ray)).

(** A ray with valid ground truth: [termination_depth > 0]. *)
Definition valid_ray (ray : list (R * R * R) * R) : bool := Rgtb (snd ray) 0.

(** The mean over the valid rays, invalid rays left out of the denominator. *)
Definition ds_nerf_mean_over_valid_rays (sigma : R) (rays : list (list (R * R * R) * R)) : R :=
  tsum (map (ds_nerf_ray_sum sigma) (filter valid_ray rays))
  / INR (length (filter valid_ray rays)).

(** The sum over the valid rays divided by [num_rays], the number of all rays
    of the batch. *)
Definition ds_nerf_valid_sum_over_all_rays (sigma : R) (num_rays : nat)
           (rays : list (list (R * R * R) * R)) : R :=
  tsum (map (ds_nerf_ray_sum sigma) (filter valid_ray rays)) / INR num_rays.

(** The ground-truth depth in the metric of the ray. *)
Definition euclidean_depth (is_euclidean : bool) (termination_depth directions_norm : list R)
  : list R :=
  if is_euclidean then termination_depth
  else map2 Rmult termination_depth directions_norm.

(** ** Samples beyond the surface *)

Inductive Forall3 {A B C : Type} (P : A -> B -> C -> Prop)
  : list A -> list B -> list C -> Prop :=
| Forall3_nil : Forall3 P [] [] []
| Forall3_cons (a : A) (b : B) (c : C) (la : list A) (lb : list B) (lc : list C) :
    P a b c -> Forall3 P la lb lc -> Forall3 P (a :: la) (b :: lb) (c :: lc).


(** ** Distortion loss *)

(** [a[..., :, None] op b[..., None, :]]: every entry of [a] against every
    entry of [b]. *)
Definition pairwise (f : R -> R -> R) (a b : list R) : list (list R) :=
  map (fun x => map (fun y => f x y) b) a.

(** [lossfun_distortion], for one ray: [t] are the [num_samples + 1] interval
    edges and [w] the [num_samples] weights. *)
Definition lossfun_distortion (t w : list R) : R :=
  let ut := map (fun x => x / 2) (map2 Rplus (tl t) (removelast t)) in
  let dut := pairwise (fun a b => Rabs (a - b)) ut ut in
  let loss_inter :=
    tsum (map2 Rmult w (map (fun row => tsum (map2 Rmult w row)) dut)) in
  let loss_intra :=
    tsum (map2 Rmult (map (fun x => x ^ 2) w) (map2 Rminus (tl t) (removelast t))) / 3 in
  loss_inter + loss_intra.

Fixpoint map3 {A B C D : Type} (f : A -> B -> C -> D)
         (a : list A) (b : list B) (c : list C) : list D :=
  match a, b, c with
  | x :: a', y :: b', z :: c' => f x y z :: map3 f a' b' c'
  | _, _, _ => []
  end.

(** The body of [nerfstudio_distortion_loss] on the samples of one ray. *)
Definition nerfstudio_distortion_ray (weights spacing_start spacing_end : list R) : R :=
  let midpoints := map (fun x => x / 2) (map2 Rplus spacing_start spacing_end) in
  let loss :=
    tmap2 Rmult (pairwise Rmult weights weights)
          (pairwise (fun a b => Rabs (a - b)) midpoints midpoints) in
  let loss := tsum (map tsum loss) in
  loss + 1 / 3 * tsum (map2 Rmult (map (fun x => x ^ 2) weights)
                                  (map2 Rminus spacing_end spacing_start)).

Section DistortionLoss.

(** [ray_samples.get_weights(densities)], a method of [RaySamples] defined
    outside of this module. *)
Variable get_weights : RaySamples -> list (list R) -> list (list R).

Definition nerfstudio_distortion_loss (ray_samples : RaySamples)
           (densities weights : option (list (list R))) : result (list R) :=
  weights <-
    match densities with
    | Some d =>
        match weights with
        | Some _ => raise (AssertionError "Cannot use both densities and weights")
        | None => ret (Some (get_weights ray_samples d))
        end
    | None => ret weights
    end ;;
  _ <-
    match weights with
    | Some _ =>
        match densities with
        | Some _ => raise (AssertionError "Cannot use both densities and weights")
        | None => ret tt
        end
    | None => ret tt
    end ;;
  match spacing_starts ray_samples, spacing_ends ray_samples with
  | Some s, Some e =>
      match weights with
      | Some w => ret (map3 nerfstudio_distortion_ray w s e)
      | None => raise (TypeError "unsupported operand type(s) for *: 'NoneType' and 'NoneType'")
      end
  | _, _ => raise (AssertionError "Ray samples must have spacing starts and ends")
  end.

End DistortionLoss.

(** One ray of a distortion input: [num_samples + 1] edges for [num_samples]
    weights, with [1 <= num_samples <= 64]. *)
Definition distortion_ray_shape (t w : list R) : Prop :=
  length t = S (length w) /\ (1 <= length w <= 64)%nat.

(** ** Adversarial loss *)

(** [torch.nn.functional.softplus] with its defaults [beta=1, threshold=20]. *)
Definition softplus (x : R) : R :=
  if Rlt_dec 20 x then x else ln (1 + exp x).

(** The names bound at module level of [losses.py], in order of binding. *)
Definition module_globals : list (string * py_value) :=
  [ ("Enum"%string, PyObject "enum.Enum");
    ("torch"%string, PyObject "torch");
    ("nn"%string, PyObject "torch.nn");
    ("TensorType"%string, PyObject "torchtyping.TensorType");
    ("Literal"%string, PyObject "typing_extensions.Literal");
    ("List"%string, PyObject "typing.List");
    ("conv2d_gradfix"%string, PyObject "nerfstudio.model_components.op.conv2d_gradfix");
    ("RaySamples"%string, PyObject "nerfstudio.cameras.rays.RaySamples");
    ("masked_reduction"%string, PyObject "nerfstudio.utils.math.masked_reduction");
    ("normalized_depth_scale_and_shift"%string,
     PyObject "nerfstudio.utils.math.normalized_depth_scale_and_shift");
    ("L1Loss"%string, PyObject "torch.nn.L1Loss");
    ("MSELoss"%string, PyObject "torch.nn.MSELoss");
    ("LOSSES"%string, PyObject "dict");
    ("EPS"%string, PyFloat EPS);
    ("URF_SIGMA_SCALE_FACTOR"%string, PyFloat URF_SIGMA_SCALE_FACTOR);
    ("DepthLossType"%string, PyObject "DepthLossType");
    ("outer"%string, PyObject "outer");
    ("lossfun_outer"%string, PyObject "lossfun_outer");
    ("ray_samples_to_sdist"%string, PyObject "ray_samples_to_sdist");
    ("interlevel_loss"%string, PyObject "interlevel_loss");
    ("lossfun_distortion"%string, PyObject "lossfun_distortion");
    ("distortion_loss"%string, PyObject "distortion_loss");
    ("nerfstudio_distortion_loss"%string, PyObject "nerfstudio_distortion_loss");
    ("orientation_loss"%string, PyObject "orientation_loss");
    ("pred_normal_loss"%string, PyObject "pred_normal_loss");
    ("ds_nerf_depth_loss"%string, PyObject "ds_nerf_depth_loss");
    ("urban_radiance_field_depth_loss"%string, PyObject "urban_radiance_field_depth_loss");
    ("depth_loss"%string, PyObject "depth_loss");
    ("monosdf_normal_loss"%string, PyObject "monosdf_normal_loss");
    ("MiDaSMSELoss"%string, PyObject "MiDaSMSELoss");
    ("GradientLoss"%string, PyObject "GradientLoss");
    ("ScaleAndShiftInvariantLoss"%string, PyObject "ScaleAndShiftInvariantLoss");
    ("GANLoss"%string, PyObject "GANLoss") ].

(** Reading a name that is not a local of the function: the module globals
    are searched (no Python builtin is called [step] or [real_img]). *)
Fixpoint lookup_name (name : string) (env : list (string * py_value)) : option py_value :=
  match env with
  | [] => None
  | (n, v) :: rest => if String.eqb n name then Some v else lookup_name name rest
  end.

Definition load_global (name : string) : result py_value :=
  match lookup_name name module_globals with
  | Some v => ret v
  | None => raise (NameError name)
  end.

Record GANLoss : Type := {
  m_type : string;
  r1_gamma : R;
  reg_step : Z
}.

Section Adversarial.

(** [torch.autograd.grad(outputs=real_pred.sum(), inputs=real_img,
    create_graph=True)] under [conv2d_gradfix.no_weight_gradients()]: the
    gradient engine is outside of this module; it returns a tuple of
    tensors, here with its one component. *)
Variable autograd_grad : R -> py_value -> result (list (list (list R))).

(** [grad_real] is the tuple returned by [torch.autograd.grad], and a tuple
    has no method [pow]. *)
Definition r1_regularization (real_pred : list R) (real_img : py_value) : result R :=
  _ <- autograd_grad (tsum real_pred) real_img ;;
  raise (AttributeError "'tuple' object has no attribute 'pow'").

Definition GANLoss_forward (self : GANLoss) (preds : list (list R)) : result R :=
  if String.eqb (m_type self) "G" then
    match preds with
    | fake_pred :: _ =>
        let loss_Gmain := torch_mean (map softplus (map Ropp fake_pred)) in
        ret loss_Gmain
    | [] => raise (IndexError "list index out of range")
    end
  else if String.eqb (m_type self) "D" then
    match preds with
    | [fake_pred; real_pred] =>
        let loss_Dmain :=
          torch_mean (map softplus (map Ropp real_pred))
          + torch_mean (map softplus fake_pred) in
        step <- load_global "step" ;;
        match step with
        | PyInt step =>
            if (step mod reg_step self =? 0)%Z then
              real_img <- load_global "real_img" ;;
              r1 <- r1_regularization real_pred real_img ;;
              ret (loss_Dmain + r1 * (r1_gamma self / 2))
            else ret loss_Dmain
        | _ => raise (TypeError "unsupported operand type(s) for %")
        end
    | _ => raise (ValueError "not enough or too many values to unpack (expected 2)")
    end
  else raise (UnboundLocalError "loss").

End Adversarial.

(** ** activations.py *)

(** [x.clamp(lo, hi)] on one entry. *)
Definition clamp (x lo hi : R) : R := Rmin (Rmax x lo) hi.

(** The autograd context of a custom [Function]: what [save_for_backward]
    stored. *)
Record Ctx : Type := { saved_tensors : list (list R) }.

Definition save_for_backward (ctx : Ctx) (x : list R) : Ctx :=
  {| saved_tensors := [x] |}.

(** [_TruncExp.forward(ctx, x)]: the context after the call, and the value. *)
Definition TruncExp_forward (ctx : Ctx) (x : list R) : Ctx * list R :=
  let ctx := save_for_backward ctx x in
  (ctx, map exp x).

(** [_TruncExp.backward(ctx, g)]. *)
Definition TruncExp_backward (ctx : Ctx) (g : list R) : list R :=
  let x := nth 0 (saved_tensors ctx) [] in
  map2 Rmult g (map (fun v => exp (clamp v (-15) 15)) x).

(** [trunc_exp = _TruncExp.apply]: the forward value. *)
Definition trunc_exp (x : list R) : list R :=
  snd (TruncExp_forward {| saved_tensors := [] |} x).

(** ** Depth maps: tensors of shape [batch, height, width] *)

Definition t3map {A B : Type} (f : A -> B) (x : list (list (list A)))
  : list (list (list B)) :=
  map (map (map f)) x.

Definition t3map2 {A B C : Type} (f : A -> B -> C)
           (x : list (list (list A))) (y : list (list (list B)))
  : list (list (list C)) :=
  map2 (map2 (map2 f)) x y.

(** [torch.sum(x, (1, 2))]: one sum per image. *)
Definition sum12 (x : list (list (list R))) : list R :=
  map (fun img => tsum (map tsum img)) x.

(** [l[::step]], after skipping [skip] entries. *)
Fixpoint every {A : Type} (step skip : nat) (l : list A) : list A :=
  match l with
  | [] => []
  | x :: rest =>
      match skip with
      | O => x :: every step (step - 1) rest
      | S k => every step k rest
      end
  end.

(** [x[:, ::step, ::step]]. *)
Definition strided {A : Type} (step : nat) (x : list (list (list A)))
  : list (list (list A)) :=
  map (fun img => every step 0 (map (every step 0) img)) x.

(** [x[:, :, 1:]], [x[:, :, :-1]], [x[:, 1:, :]] and [x[:, :-1, :]]. *)
Definition cols_from_1 {A : Type} (x : list (list (list A))) := map (map (@tl A)) x.
Definition cols_to_last {A : Type} (x : list (list (list A))) := map (map (@removelast A)) x.
Definition rows_from_1 {A : Type} (x : list (list (list A))) := map (@tl (list A)) x.
Definition rows_to_last {A : Type} (x : list (list (list A))) := map (@removelast (list A)) x.

Record MiDaSMSELoss : Type := { mse_reduction_type : string }.

Record GradientLoss : Type := {
  reduction_type : string;
  scales : Z
}.

Record ScaleAndShiftInvariantLoss : Type := {
  data_loss : MiDaSMSELoss;
  regularization_loss : GradientLoss;
  alpha : R;
  prediction_ssi : option (list (list (list R)))
}.

Section DepthMapLosses.

(** [nerfstudio.utils.math.masked_reduction(input_tensor, mask,
    reduction_type)], defined outside of this module. *)
Variable masked_reduction : list R -> list R -> string -> R.

(** [nerfstudio.utils.math.normalized_depth_scale_and_shift(prediction,
    target, mask)], defined outside of this module: one scale and one shift
    per image. *)
Variable normalized_depth_scale_and_shift :
  list (list (list R)) -> list (list (list R)) -> list (list (list R))
  -> list R * list R.

Definition MiDaSMSELoss_forward (self : MiDaSMSELoss)
           (prediction target mask : list (list (list R))) : R :=
  let summed_mask := sum12 mask in
  let image_loss :=
    sum12 (t3map2 Rmult (t3map2 (fun p t => (p - t) ^ 2) prediction target) mask) in
  masked_reduction image_loss (map (fun m => 2 * m) summed_mask)
                   (mse_reduction_type self).

Definition gradient_loss (self : GradientLoss)
           (prediction target mask : list (list (list R))) : R :=
  let summed_mask := sum12 mask in
  let diff := t3map2 Rminus prediction target in
  let diff := t3map2 Rmult mask diff in
  let grad_x := t3map Rabs (t3map2 Rminus (cols_from_1 diff) (cols_to_last diff)) in
  let mask_x := t3map2 Rmult (cols_from_1 mask) (cols_to_last mask) in
  let grad_x := t3map2 Rmult mask_x grad_x in
  let grad_y := t3map Rabs (t3map2 Rminus (rows_from_1 diff) (rows_to_last diff)) in
  let mask_y := t3map2 Rmult (rows_from_1 mask) (rows_to_last mask) in
  let grad_y := t3map2 Rmult mask_y grad_y in
  let image_loss := map2 Rplus (sum12 grad_x) (sum12 grad_y) in
  masked_reduction image_loss summed_mask (reduction_type self).

Definition GradientLoss_forward (self : GradientLoss)
           (prediction target mask : list (list (list R))) : R :=
  fold_left
    (fun total scale =>
       let step := Nat.pow 2 scale in
       let grad_loss :=
         gradient_loss self (strided step prediction) (strided step target)
                       (strided step mask) in
       total + grad_loss)
    (seq 0 (Z.to_nat (scales self))) 0.

(** [ScaleAndShiftInvariantLoss.forward]: the object after the call, with
    its cached aligned prediction, and the returned loss. *)
Definition ScaleAndShiftInvariantLoss_forward (self : ScaleAndShiftInvariantLoss)
           (prediction target mask : list (list (list R)))
  : ScaleAndShiftInvariantLoss * R :=
  let '(scale, shift) := normalized_depth_scale_and_shift prediction target mask in
  let ssi :=
    map3 (fun s t img => map (map (fun p => s * p + t)) img) scale shift prediction in
  let self := {| data_loss := data_loss self;
                 regularization_loss := regularization_loss self;
                 alpha := alpha self;
                 prediction_ssi := Some ssi |} in
  let total := MiDaSMSELoss_forward (data_loss self) ssi target mask in
  let total :=
    if Rlt_dec 0 (alpha self)
    then total + alpha self * GradientLoss_forward (regularization_loss self) ssi target mask
    else total in
  (self, total).

End DepthMapLosses.

(** ** Exact scale-and-shift alignment

    The pixels of one image that the loss reads, as triples
    (mask, prediction, target). *)
Definition pixels (m p y : list (list R)) : list (R * R * R) :=
  concat (map3 (map3 (fun a b c => (a, b, c))) m p y).

(** The masked squared error of the aligned image [s * p + t]. *)
Definition alignment_error (px : list (R * R * R)) (s t : R) : R :=
  tsum (map (fun x : R * R * R =>
               let '(m, p, y) := x in m * (s * p + t - y) ^ 2) px).

(** [(s, t)] is an exact alignment of one image: no scale and shift has a
    smaller masked squared error. *)
Definition exact_alignment (p y m : list (list R)) (s t : R) : Prop :=
  forall s' t', alignment_error (pixels m p y) s t <= alignment_error (pixels m p y) s' t'.

(** The solver returned an exact alignment for every image of the batch. *)
Inductive exact_alignment_batch
  : list R -> list R -> list (list (list R)) -> list (list (list R))
    -> list (list (list R)) -> Prop :=
| exact_nil : exact_alignment_batch [] [] [] [] []
| exact_cons (s t : R) (p y m : list (list R)) (ss ts : list R)
             (P Y M : list (list (list R))) :
    exact_alignment p y m s t ->
    exact_alignment_batch ss ts P Y M ->
    exact_alignment_batch (s :: ss) (t :: ts) (p :: P) (y :: Y) (m :: M).

(** A mask of valid pixels: every entry is 0 or 1. *)
Definition valid_mask (mask : list (list (list R))) : Prop :=
  Forall (Forall (Forall (fun m => m = 0 \/ m = 1))) mask.

(** An exact solver on batches of one image of two valid pixels: the line
    through the two (prediction, target) points.  An instance of the
    collaborator on which the loss can be evaluated. *)
Definition two_point_alignment (prediction target mask : list (list (list R)))
  : list R * list R :=
  match prediction, target with
  | [[[p0; p1]]], [[[y0; y1]]] =>
      let s := (y1 - y0) / (p1 - p0) in
      ([s], [y0 - s * p0])
  | _, _ => ([], [])
  end.

(** A pixel of the image [a * p + b]. *)
Definition affine_pixel (a b : R) (x : R * R * R) : R * R * R :=
  let '(m, p, y) := x in (m, a * p + b, y).

(** The squared distance of two aligned images on the mask. *)
Definition alignment_gap (px : list (R * R * R)) (s1 t1 s2 t2 : R) : R :=
  tsum (map (fun x : R * R * R =>
               let '(m, p, y) := x in m * ((s1 * p + t1) - (s2 * p + t2)) ^ 2) px).

(** ** Proof automation *)

Ltac decide_reals :=
  repeat match goal with
         | |- context [Rle_dec ?a ?b] => destruct (Rle_dec a b); try lra
         | |- context [Rlt_dec ?a ?b] => destruct (Rlt_dec a b); try lra
         end.

Ltac sorted_reals :=
  repeat (constructor; try lra).

(** ** The remaining functions of losses.py *)

(** [lossfun_outer], for one ray: [t] and [t_env] are interval edges. *)
Definition lossfun_outer (t w t_env w_env : list R) : result (list R) :=
  w_outer <- outer (removelast t) (tl t) (removelast t_env) (tl t_env) w_env ;;
  ret (map2 Rdiv
            (map (fun x => x ^ 2) (map (fun x => Rmax x 0) (map2 Rminus w w_outer)))
            (map (fun x => x + EPS) w)).

(** [l[-1:]]. *)
Definition last1 {A : Type} (l : list A) : list A := skipn (length l - 1) l.

(** [l[-1]] on a Python list. *)
Definition py_last {A : Type} (l : list A) : result A :=
  match rev l with
  | x :: _ => ret x
  | [] => raise (IndexError "list index out of range")
  end.

Definition ray_samples_to_sdist (ray_samples : RaySamples) : result (list (list R)) :=
  match spacing_starts ray_samples with
  | None => raise (TypeError "'NoneType' object is not subscriptable")
  | Some s =>
      match spacing_ends ray_samples with
      | None => raise (TypeError "'NoneType' object is not subscriptable")
      | Some e => ret (map2 (fun s_ray e_ray => s_ray ++ last1 e_ray) s e)
      end
  end.

(** [lossfun_outer] on tensors with one leading dimension: ray by ray. *)
Fixpoint lossfun_outer_rays (t w t_env w_env : list (list R)) : result (list (list R)) :=
  match t, w, t_env, w_env with
  | t0 :: t', w0 :: w', te0 :: te', we0 :: we' =>
      r <- lossfun_outer t0 w0 te0 we0 ;;
      rs <- lossfun_outer_rays t' w' te' we' ;;
      ret (r :: rs)
  | _, _, _, _ => ret []
  end.

(** The loop of [interlevel_loss] over the zipped coarser levels. *)
Fixpoint interlevel_loop (c w : list (list R))
         (levels : list (RaySamples * list (list R))) (loss_interlevel : R) : result R :=
  match levels with
  | [] => ret loss_interlevel
  | (ray_samples, weights) :: rest =>
      sdist <- ray_samples_to_sdist ray_samples ;;
      l <- lossfun_outer_rays c w sdist weights ;;
      interlevel_loop c w rest (loss_interlevel + torch_mean (concat l))
  end.

Definition interlevel_loss (weights_list : list (list (list R)))
           (ray_samples_list : list RaySamples) : result R :=
  last_samples <- py_last ray_samples_list ;;
  c <- ray_samples_to_sdist last_samples ;;
  w <- py_last weights_list ;;
  interlevel_loop c w (combine (removelast ray_samples_list) (removelast weights_list)) 0.


(** [(a * b).sum(-1)] on two vectors. *)
Definition dot (a b : list R) : R := tsum (map2 Rmult a b).

(** [orientation_loss]: weights of shape [rays, samples], normals of shape
    [rays, samples, 3], view directions of shape [rays, 3]. *)
Definition orientation_loss (weights : list (list R)) (normals : list (list (list R)))
           (viewdirs : list (list R)) : list R :=
  map3 (fun w n viewdir =>
          let v := map (fun x => x * -1) viewdir in
          let n_dot_v := map (fun ni => dot ni v) n in
          tsum (map2 Rmult w (map (fun x => Rmin 0 x ^ 2) n_dot_v)))
       weights normals viewdirs.

Definition pred_normal_loss (weights : list (list R))
           (normals pred_normals : list (list (list R))) : list R :=
  map3 (fun w n p => tsum (map2 Rmult w (map (fun d => 1 - d) (map2 dot n p))))
       weights normals pred_normals.

(** [torch.nn.functional.normalize(x, p=2, dim=-1)], with its default
    [eps = 1e-12], on one vector. *)
Definition normalize (v : list R) : list R :=
  let norm := sqrt (tsum (map (fun x => x ^ 2) v)) in
  map (fun x => x / Rmax norm (1 / 1000000000000)) v.

Definition monosdf_normal_loss (normal_pred normal_gt : list (list R)) : R :=
  let normal_gt := map normalize normal_gt in
  let normal_pred := map normalize normal_pred in
  let l1 := torch_mean (map tsum (tmap Rabs (tmap2 Rminus normal_pred normal_gt))) in
  let cos := torch_mean (map (fun d => 1 - d) (map2 dot normal_pred normal_gt)) in
  l1 + cos.

(** ** The index range that [outer] reads for one source bin *)

(** [idx_lo] and [idx_hi] of a source bin, after the clamp, and the prefix
    sums of the target weights. *)
Definition outer_lo (t1_starts y1 : list R) (s : R) : nat :=
  Z.to_nat (clampZ (searchsorted_right t1_starts s - 1) 0 (Z.of_nat (length y1) - 1)).

Definition outer_hi (t1_ends y1 : list R) (e : R) : nat :=
  Z.to_nat (clampZ (searchsorted_right t1_ends e) 0 (Z.of_nat (length y1) - 1)).

Definition prefix_sum (y : list R) (k : nat) : R := tsum (firstn k y).

(** [agree_where_masked mask p p']: the depth maps [p] and [p'] have the
    shape of [mask] and differ at most at pixels where the mask is 0. *)
Definition agree_where_masked (mask p p' : list (list (list R))) : Prop :=
  Forall3 (Forall3 (Forall3 (fun m a b => m = 0 \/ a = b))) mask p p'.

(** ** The distortion loss over an arithmetic

    The two distortion formulations once more, with the scalar arithmetic as
    a parameter: the reals give back the definitions above, IEEE 754 binary32
    gives what a float32 tensor computes. *)

Record Arith : Type := {
  num : Type;
  a_zero : num;
  a_add : num -> num -> num;
  a_sub : num -> num -> num;
  a_mul : num -> num -> num;
  a_div : num -> num -> num;
  a_abs : num -> num;
  (** [x ** 2] *)
  a_sq : num -> num;
  (** the Python numbers [2] (or [2.0]) and [3] as operands of a tensor *)
  a_two : num;
  a_three : num;
  (** the Python float [1 / 3.0] as operand of a tensor *)
  a_third : num
}.

(** [torch.sum] over one dimension, accumulated from the right end. *)
Definition tsum_in (A : Arith) (l : list (num A)) : num A :=
  fold_right (a_add A) (a_zero A) l.

Definition lossfun_distortion_in (A : Arith) (t w : list (num A)) : num A :=
  let ut := map (fun x => a_div A x (a_two A)) (map2 (a_add A) (tl t) (removelast t)) in
  let dut := map (fun x => map (fun y => a_abs A (a_sub A x y)) ut) ut in
  let loss_inter :=
    tsum_in A (map2 (a_mul A) w (map (fun row => tsum_in A (map2 (a_mul A) w row)) dut)) in
  let loss_intra :=
    a_div A (tsum_in A (map2 (a_mul A) (map (a_sq A) w)
                             (map2 (a_sub A) (tl t) (removelast t))))
          (a_three A) in
  a_add A loss_inter loss_intra.

Definition nerfstudio_distortion_ray_in (A : Arith)
           (weights spacing_start spacing_end : list (num A)) : num A :=
  let midpoints :=
    map (fun x => a_div A x (a_two A)) (map2 (a_add A) spacing_start spacing_end) in
  let loss :=
    tmap2 (a_mul A)
          (map (fun x => map (fun y => a_mul A x y) weights) weights)
          (map (fun x => map (fun y => a_abs A (a_sub A x y)) midpoints) midpoints) in
  let loss := tsum_in A (map (tsum_in A) loss) in
  a_add A loss
        (a_mul A (a_third A)
               (tsum_in A (map2 (a_mul A) (map (a_sq A) weights)
                                (map2 (a_sub A) spacing_end spacing_start)))).

Definition Real_arith : Arith := {|
  num := R;
  a_zero := 0;
  a_add := Rplus;
  a_sub := Rminus;
  a_mul := Rmult;
  a_div := Rdiv;
  a_abs := Rabs;
  a_sq := fun x => x ^ 2;
  a_two := 2;
  a_three := 3;
  a_third := 1 / 3
|}.

(** binary32: 24 bits of precision, infinities at exponent 128; binary64: 53
    and 1024.  Rounding is to nearest, ties to even. *)
Definition f32_of_Z (z : Z) : spec_float := binary_normalize 24 128 z 0 false.

Definition f64_of_Z (z : Z) : spec_float := binary_normalize 53 1024 z 0 false.

(** A Python float (binary64) used as operand of a float32 tensor is rounded
    to binary32. *)
Definition f32_of_f64 (x : spec_float) : spec_float :=
  match x with
  | S754_finite s m e => binary_normalize 24 128 (cond_Zopp s (Zpos m)) e s
  | other => other
  end.

Definition Float32_arith : Arith := {|
  num := spec_float;
  a_zero := S754_zero false;
  a_add := SFadd 24 128;
  a_sub := SFsub 24 128;
  a_mul := SFmul 24 128;
  a_div := SFdiv 24 128;
  a_abs := SFabs;
  a_sq := fun x => SFmul 24 128 x x;
  a_two := f32_of_Z 2;
  a_three := f32_of_Z 3;
  a_third := f32_of_f64 (SFdiv 53 1024 (f64_of_Z 1) (f64_of_Z 3))
|}.

(** The real number that a finite float stands for. *)
Definition SF2R (x : spec_float) : R :=
  match x with
  | S754_finite s m e => IZR (cond_Zopp s (Zpos m)) * powerRZ 2 e
  | _ => 0
  end.

(** ** The depth losses before the mean, and the mean of an empty batch

    [torch.mean] of an empty tensor is nan: [None] below.  The tensors
    [loss] on which [ds_nerf_depth_loss] and
    [urban_radiance_field_depth_loss] call [torch.mean] are named, so that
    the two functions can be read with that case made explicit. *)

Definition torch_mean_or_nan (l : list R) : option R :=
  match l with
  | [] => None
  | _ :: _ => Some (torch_mean l)
  end.

Definition ds_nerf_ray_losses (weights : list (list R)) (termination_depth : list R)
           (steps lengths : list (list R)) (sigma : R) : list R :=
  let depth_mask := map (fun d => Rgtb d 0) termination_depth in
  let loss :=
    tmap2 Rmult
      (tmap2 Rmult
         (tmap (fun w => - ln (w + EPS)) weights)
         (tmap (fun x => exp (- (x ^ 2) / (2 * sigma)))
               (tmap_ray Rminus steps termination_depth)))
      lengths in
  map2 Rmult (sum_samples loss) (map b2R depth_mask).

Definition urban_ray_losses (weights : list (list R))
           (termination_depth predicted_depth : list R)
           (steps : list (list R)) (sigma : R) : list R :=
  let depth_mask := map (fun d => Rgtb d 0) termination_depth in
  let expected_depth_loss :=
    map (fun x => x ^ 2) (map2 Rminus termination_depth predicted_depth) in
  let line_of_sight_loss :=
    map2 Rplus (line_of_sight_loss_near weights termination_depth steps sigma)
               (line_of_sight_loss_empty weights termination_depth steps sigma) in
  map2 Rmult (map2 Rplus expected_depth_loss line_of_sight_loss) (map b2R depth_mask).

Definition ds_nerf_depth_loss_or_nan (weights : list (list R)) (termination_depth : list R)
           (steps lengths : list (list R)) (sigma : R) : option R :=
  torch_mean_or_nan (ds_nerf_ray_losses weights termination_depth steps lengths sigma).

Definition urban_radiance_field_depth_loss_or_nan (weights : list (list R))
           (termination_depth predicted_depth : list R)
           (steps : list (list R)) (sigma : R) : option R :=
  torch_mean_or_nan
    (urban_ray_losses weights termination_depth predicted_depth steps sigma).




(** The last statements of [urban_radiance_field_depth_loss] on a batch of
    one ray in binary32, from the value that [line_of_sight_loss] has on the
    ray: the squared depth error, the mask as a factor, the mean. *)
Definition urban_one_ray_float32
           (line_of_sight_loss termination_depth predicted_depth : spec_float)
  : spec_float :=
  let A := Float32_arith in
  let depth_mask := SFltb (f32_of_Z 0) termination_depth in
  let expected_depth_loss := a_sq A (a_sub A termination_depth predicted_depth) in
  let loss :=
    a_mul A (a_add A expected_depth_loss line_of_sight_loss)
          (if depth_mask then f32_of_Z 1 else f32_of_Z 0) in
  a_div A (tsum_in A [loss]) (f32_of_Z 1).

(** * Theorems *)

(** ** Generic list and sum facts *)

Lemma mapM_inr {A B : Type} (f : A -> result B) (g : A -> B) (l : list A) :
  (forall a, In a l -> f a = inr (g a)) -> mapM f l = inr (map g l).
Proof.
  induction l as [|a l IH]; intros Hf; simpl.
  - reflexivity.
  - rewrite (Hf a (or_introl eq_refl)). simpl.
    rewrite IH by (intros b Hb; apply Hf; right; exact Hb).
    reflexivity.
Qed.

Lemma map2_map_same {A B C D : Type} (h : B -> C -> D) (f : A -> B) (g : A -> C)
      (l : list A) :
  map2 h (map f l) (map g l) = map (fun a => h (f a) (g a)) l.
Proof. induction l as [|a l IH]; simpl; [reflexivity | now rewrite IH]. Qed.

Lemma tsum_app (a b : list R) : tsum (a ++ b) = tsum a + tsum b.
Proof. induction a as [|x a IH]; cbn [app tsum]; [lra | rewrite IH; lra]. Qed.


Lemma map2_length {A B C : Type} (f : A -> B -> C) (a : list A) (b : list B) :
  length a = length b -> length (map2 f a b) = length a.
Proof.
  revert b. induction a as [|x a IH]; intros [|y b] H; try discriminate.
  - reflexivity.
  - cbn [map2 length]. rewrite IH by (simpl in H; lia). reflexivity.
Qed.

Lemma tsum_firstn_S (y : list R) (i : nat) :
  tsum (firstn (S i) y) = tsum (firstn i y) + nth i y 0.
Proof.
  revert i. induction y as [|a y IH]; intros i.
  - destruct i; simpl; lra.
  - destruct i as [|i].
    + simpl. lra.
    + change (firstn (S (S i)) (a :: y)) with (a :: firstn (S i) y).
      cbn [tsum]. rewrite IH. simpl. lra.
Qed.

Lemma cumsum_from_length (acc : R) (y : list R) :
  length (cumsum_from acc y) = length y.
Proof. revert acc. induction y as [|a y IH]; intros acc; simpl; [reflexivity | now rewrite IH]. Qed.

Lemma cumsum_from_nth (y : list R) (acc : R) (i : nat) :
  (i < length y)%nat ->
  nth i (cumsum_from acc y) 0 = acc + tsum (firstn (S i) y).
Proof.
  revert acc i. induction y as [|a y IH]; intros acc i Hi; simpl in Hi.
  - lia.
  - destruct i as [|i].
    + cbn [cumsum_from nth firstn tsum]. lra.
    + change (firstn (S (S i)) (a :: y)) with (a :: firstn (S i) y).
      cbn [cumsum_from nth tsum]. rewrite IH by lia. lra.
Qed.

(** ** The search over strictly increasing edges *)

Lemma searchsorted_right_below (l : list R) (v : R) :
  StronglySorted Rlt (v :: l) -> searchsorted_right l v = 0%Z.
Proof.
  intros H. inversion H as [|? ? _ Hall]; subst.
  destruct l as [|x l]; simpl; [reflexivity|].
  inversion Hall; subst.
  destruct (Rle_dec x v); [lra | reflexivity].
Qed.

Lemma searchsorted_right_self (l : list R) :
  StronglySorted Rlt l ->
  map (searchsorted_right l) l = map Z.of_nat (seq 1 (length l)).
Proof.
  induction l as [|x l IH]; intros Hs; [reflexivity|].
  pose proof Hs as Hs0.
  inversion Hs as [|? ? Hsl Hall]; subst.
  cbn [map length seq]. f_equal.
  - cbn [searchsorted_right]. destruct (Rle_dec x x); [|lra].
    rewrite (searchsorted_right_below l x Hs0). reflexivity.
  - rewrite <- seq_shift, map_map.
    transitivity (map Z.succ (map (searchsorted_right l) l)).
    + rewrite map_map. apply map_ext_in. intros v Hv. cbn [searchsorted_right].
      rewrite Forall_forall in Hall. specialize (Hall v Hv).
      destruct (Rle_dec x v); [lia | lra].
    + rewrite (IH Hsl), map_map. apply map_ext. intros i. lia.
Qed.

Lemma take_along_dim_nats (src : list R) (l : list nat) :
  (forall i, In i l -> (i < length src)%nat) ->
  take_along_dim src (map Z.of_nat l) = inr (map (fun i => nth i src 0) l).
Proof.
  intros Hl. unfold take_along_dim.
  rewrite (mapM_inr _ (fun z => nth (Z.to_nat z) src 0)).
  - rewrite map_map. f_equal. apply map_ext. intros i. now rewrite Nat2Z.id.
  - intros z Hz. apply in_map_iff in Hz. destruct Hz as [i [<- Hi]].
    unfold take1. destruct (Z.ltb_spec (Z.of_nat i) 0); [lia|].
    rewrite Nat2Z.id. specialize (Hl i Hi).
    destruct (nth_error src i) eqn:E.
    + now rewrite (nth_error_nth _ _ _ E).
    + apply nth_error_None in E. lia.
Qed.

Lemma with_right_neighbour_length (y : list R) :
  length (with_right_neighbour y) = length y.
Proof.
  induction y as [|a y IH]; [reflexivity|].
  destruct y as [|b y]; [reflexivity|].
  change (with_right_neighbour (a :: b :: y))
    with ((a + b) :: with_right_neighbour (b :: y)).
  cbn [length]. now rewrite IH.
Qed.

Lemma with_right_neighbour_nth (y : list R) (i : nat) :
  nth i (with_right_neighbour y) 0 = nth i y 0 + nth (S i) y 0.
Proof.
  revert i. induction y as [|a y IH]; intros i.
  - destruct i; simpl; lra.
  - destruct y as [|b y].
    + destruct i as [|[|i]]; simpl; lra.
    + change (with_right_neighbour (a :: b :: y))
        with ((a + b) :: with_right_neighbour (b :: y)).
      destruct i as [|i]; [reflexivity|].
      change (nth (S i) ((a + b) :: with_right_neighbour (b :: y)) 0)
        with (nth i (with_right_neighbour (b :: y)) 0).
      rewrite IH. reflexivity.
Qed.

Lemma nth_map_seq (f : nat -> R) (n i : nat) :
  (i < n)%nat -> nth i (map f (seq 0 n)) 0 = f i.
Proof.
  intros Hi.
  rewrite (nth_indep _ 0 (f 0%nat)) by (now rewrite length_map, length_seq).
  rewrite map_nth, seq_nth by exact Hi. reflexivity.
Qed.

Lemma outer_idx_lo (edges : list R) (n : nat) :
  StronglySorted Rlt edges -> length edges = n ->
  map (fun i => clampZ i 0 (Z.of_nat n - 1))
      (map (fun v => (searchsorted_right edges v - 1)%Z) edges)
  = map Z.of_nat (seq 0 n).
Proof.
  intros Hs Hn.
  rewrite <- (map_map (searchsorted_right edges) (fun z => (z - 1)%Z)).
  rewrite (searchsorted_right_self _ Hs), Hn, <- seq_shift, !map_map.
  apply map_ext_in. intros i Hi. apply in_seq in Hi.
  unfold clampZ. lia.
Qed.

Lemma outer_idx_hi (edges : list R) (n : nat) :
  StronglySorted Rlt edges -> length edges = n ->
  map (fun i => clampZ i 0 (Z.of_nat n - 1))
      (map (fun v => searchsorted_right edges v) edges)
  = map Z.of_nat (map (fun i => Nat.min (S i) (n - 1)) (seq 0 n)).
Proof.
  intros Hs Hn.
  change (map (fun v => searchsorted_right edges v) edges)
    with (map (searchsorted_right edges) edges).
  rewrite (searchsorted_right_self _ Hs), Hn, <- seq_shift, !map_map.
  apply map_ext_in. intros i Hi. apply in_seq in Hi.
  unfold clampZ. lia.
Qed.

(** C1, as amended.  On identical source and target bins with strictly
    increasing starts and strictly increasing ends, [outer] returns, for bin
    [i], [y1[i] + y1[i+1]] (and [y1[n-1]] for the last bin): the upper search
    uses [side="right"], so the bin whose end equals the query end is passed
    over and its right neighbour is included. *)
Theorem outer_aligned_bins (t_starts t_ends y1 : list R) :
  length t_starts = length y1 ->
  length t_ends = length y1 ->
  StronglySorted Rlt t_starts ->
  StronglySorted Rlt t_ends ->
  outer t_starts t_ends t_starts t_ends y1 = inr (with_right_neighbour y1).
Proof.
  intros Hls Hle Hss Hse. unfold outer.
  rewrite (outer_idx_lo t_starts (length y1) Hss Hls).
  rewrite (outer_idx_hi t_ends (length y1) Hse Hle).
  destruct y1 as [|a y] eqn:Ey; [reflexivity|].
  rewrite <- Ey.
  assert (Hn : (0 < length y1)%nat) by (rewrite Ey; simpl; lia).
  assert (Hcy : zeros_like (firstn 1 y1) ++ cumsum y1 = 0 :: cumsum y1)
    by (rewrite Ey; reflexivity).
  rewrite Hcy. clear Hcy.
  assert (Hlc : length (cumsum y1) = length y1) by apply cumsum_from_length.
  rewrite take_along_dim_nats.
  2:{ intros i Hi. apply in_seq in Hi.
      rewrite removelast_firstn_len, length_firstn. simpl length. lia. }
  cbn [bind tl].
  rewrite take_along_dim_nats.
  2:{ intros i Hi. apply in_map_iff in Hi. destruct Hi as [j [<- Hj]]. lia. }
  cbn [bind]. unfold ret. f_equal.
  rewrite map_map, map2_map_same.
  apply (nth_ext _ _ 0 0).
  - now rewrite length_map, length_seq, with_right_neighbour_length.
  - intros i Hi. rewrite length_map, length_seq in Hi.
    rewrite nth_map_seq by exact Hi.
    rewrite with_right_neighbour_nth.
    rewrite removelast_firstn_len, nth_firstn. cbn [length Nat.pred].
    rewrite Hlc. destruct (Nat.ltb_spec i (length y1)) as [_|?]; [|lia].
    unfold cumsum. rewrite cumsum_from_nth by lia.
    assert (Hlo : nth i (0 :: cumsum_from 0 y1) 0 = tsum (firstn i y1)).
    { destruct i as [|i]; [reflexivity|].
      cbn [nth]. rewrite cumsum_from_nth by lia. lra. }
    rewrite Hlo.
    destruct (Nat.eq_dec (S i) (length y1)) as [Hlast|Hlast].
    + replace (Nat.min (S i) (length y1 - 1)) with i by lia.
      rewrite tsum_firstn_S, (nth_overflow y1 0 (n := S i)) by lia. lra.
    + replace (Nat.min (S i) (length y1 - 1)) with (S i) by lia.
      rewrite !tsum_firstn_S. lra.
Qed.

Lemma outer_aligned_bins_witness :
  outer [0; 1] [1; 2] [0; 1] [1; 2] [1; 1] = inr (with_right_neighbour [1; 1]).
Proof.
  apply outer_aligned_bins; [reflexivity | reflexivity | sorted_reals | sorted_reals].
Defined.

(** C1, as stated, fails: on the partition [0, 1, 2] with weights [1, 1] the
    source equals the target, yet the first bin receives the mass of both. *)
Lemma outer_aligned_not_identity :
  outer [0; 1] [1; 2] [0; 1] [1; 2] [1; 1] <> inr [1; 1].
Proof.
  unfold outer. cbn [map searchsorted_right].
  decide_reals.
  cbv [clampZ length Z.of_nat Pos.of_succ_nat Pos.succ Z.sub Z.add Z.opp Z.pos_sub
       Z.max Z.min Z.compare Pos.compare Pos.compare_cont Z.succ_double Z.pred_double
       Z.double Pos.pred_double].
  cbn.
  intros H. injection H as H1 H2. lra.
Qed.

(** ** Depth losses *)

(** C9.  [depth_loss] raises [NotImplementedError] for every
    [depth_loss_type] that is neither [DepthLossType.DS_NERF] nor
    [DepthLossType.URF], whatever the other arguments are; no value is
    returned for such a kind. *)
Theorem depth_loss_unrecognized_kind
        (weights : list (list R)) (ray_samples : RaySamples)
        (termination_depth predicted_depth : list R) (sigma : R)
        (directions_norm : list R) (is_euclidean : bool) (depth_loss_type : py_value) :
  depth_loss_type <> PyEnum DS_NERF ->
  depth_loss_type <> PyEnum URF ->
  depth_loss weights ray_samples termination_depth predicted_depth sigma
             directions_norm is_euclidean depth_loss_type
  = inl (NotImplementedError "Provided depth loss type not implemented.").
Proof.
  intros Hds Hurf. unfold depth_loss.
  destruct depth_loss_type as [[|]| | | | | |]; try reflexivity; congruence.
Qed.

Lemma depth_loss_unrecognized_kind_witness :
  depth_loss [[1]] {| frustums := {| starts := [[0]]; ends := [[1]] |};
                      spacing_starts := None; spacing_ends := None |}
             [1] [1] 1 [1] true (PyInt 1)
  = inl (NotImplementedError "Provided depth loss type not implemented.").
Proof.
  apply depth_loss_unrecognized_kind; discriminate.
Defined.

Lemma masked_sum_all_invalid (per_ray_loss termination_depth : list R) :
  Forall (fun d => d <= 0) termination_depth ->
  tsum (map2 Rmult per_ray_loss (map b2R (map (fun d => Rgtb d 0) termination_depth))) = 0.
Proof.
  intros H. revert per_ray_loss.
  induction H as [|d ds Hd _ IH]; intros [|x xs]; try reflexivity.
  cbn [map map2 tsum]. rewrite IH.
  unfold Rgtb, Rltb. destruct (Rlt_dec 0 d); [lra|]. cbn [b2R]. lra.
Qed.

Lemma torch_mean_or_nan_nonempty (l : list R) :
  l <> [] -> torch_mean_or_nan l = Some (torch_mean l).
Proof. destruct l; [congruence | reflexivity]. Qed.

(** C7, as amended.  On a batch of at least one ray in which every ray has
    [termination_depth <= 0], with the arithmetic read over the reals,
    [ds_nerf_depth_loss] and [urban_radiance_field_depth_loss] both return
    exactly 0: the mean is taken over at least one entry and every entry is
    masked to 0. *)
Theorem depth_losses_all_invalid
        (weights : list (list R)) (termination_depth predicted_depth : list R)
        (steps lengths : list (list R)) (sigma : R) :
  (0 < length termination_depth)%nat ->
  per_ray weights termination_depth ->
  length predicted_depth = length termination_depth ->
  same_shape weights steps ->
  same_shape weights lengths ->
  nonneg weights ->
  0 < sigma ->
  Forall (fun d => d <= 0) termination_depth ->
  ds_nerf_depth_loss_or_nan weights termination_depth steps lengths sigma = Some 0
  /\ urban_radiance_field_depth_loss_or_nan weights termination_depth predicted_depth
                                            steps sigma = Some 0
  /\ ds_nerf_depth_loss weights termination_depth steps lengths sigma = 0
  /\ urban_radiance_field_depth_loss weights termination_depth predicted_depth
                                     steps sigma = 0.
Proof.
  intros Hn HW HP HS HL _ _ Hd.
  assert (Hz1 : ds_nerf_depth_loss weights termination_depth steps lengths sigma = 0).
  { unfold ds_nerf_depth_loss, torch_mean.
    rewrite masked_sum_all_invalid by exact Hd. unfold Rdiv. ring. }
  assert (Hz2 : urban_radiance_field_depth_loss weights termination_depth predicted_depth
                                                steps sigma = 0).
  { unfold urban_radiance_field_depth_loss, torch_mean.
    rewrite masked_sum_all_invalid by exact Hd. unfold Rdiv. ring. }
  assert (Hne1 : ds_nerf_ray_losses weights termination_depth steps lengths sigma <> []).
  { destruct termination_depth as [|d D]; [simpl in Hn; lia|].
    destruct weights as [|w W]; [discriminate HW|].
    inversion HS; subst. inversion HL; subst. discriminate. }
  assert (Hne2 : urban_ray_losses weights termination_depth predicted_depth steps sigma
                 <> []).
  { destruct termination_depth as [|d D]; [simpl in Hn; lia|].
    destruct weights as [|w W]; [discriminate HW|].
    destruct predicted_depth as [|p P]; [discriminate HP|].
    inversion HS; subst. discriminate. }
  unfold ds_nerf_depth_loss_or_nan, urban_radiance_field_depth_loss_or_nan.
  rewrite (torch_mean_or_nan_nonempty _ Hne1), (torch_mean_or_nan_nonempty _ Hne2).
  change (torch_mean (ds_nerf_ray_losses weights termination_depth steps lengths sigma))
    with (ds_nerf_depth_loss weights termination_depth steps lengths sigma).
  change (torch_mean (urban_ray_losses weights termination_depth predicted_depth
                                       steps sigma))
    with (urban_radiance_field_depth_loss weights termination_depth predicted_depth
                                          steps sigma).
  rewrite Hz1, Hz2. repeat split; reflexivity.
Qed.

Lemma depth_losses_all_invalid_witness :
  ds_nerf_depth_loss_or_nan [[3 / 10; 3 / 10]] [0] [[1 / 2; 3 / 2]] [[1; 1]] (1 / 10)
  = Some 0
  /\ urban_radiance_field_depth_loss_or_nan [[3 / 10; 3 / 10]] [0] [3 / 2]
                                            [[1 / 2; 3 / 2]] (1 / 10) = Some 0
  /\ ds_nerf_depth_loss [[3 / 10; 3 / 10]] [0] [[1 / 2; 3 / 2]] [[1; 1]] (1 / 10) = 0
  /\ urban_radiance_field_depth_loss [[3 / 10; 3 / 10]] [0] [3 / 2]
                                     [[1 / 2; 3 / 2]] (1 / 10) = 0.
Proof.
  apply depth_losses_all_invalid;
    try reflexivity; try lra; try (simpl; lia);
    repeat (constructor; try lra; try reflexivity).
Defined.

(** C7, as stated, fails twice.  On the batch without any ray, which has no
    ray with [termination_depth > 0], both functions take the mean of an
    empty tensor and return nan, not 0.  And in float32, on one ray with
    [termination_depth = 0] and the finite [predicted_depth = 2^100], the
    squared depth error overflows to infinity, whose product with the mask
    entry 0 is nan, whatever the line-of-sight term is. *)
Lemma depth_losses_nan_not_zero :
  ds_nerf_depth_loss_or_nan [] [] [] [] 1 = None
  /\ urban_radiance_field_depth_loss_or_nan [] [] [] [] 1 = None
  /\ Forall (fun d => d <= 0) (@nil R)
  /\ ds_nerf_depth_loss_or_nan [] [] [] [] 1 <> Some 0
  /\ urban_radiance_field_depth_loss_or_nan [] [] [] [] 1 <> Some 0
  /\ SFltb (f32_of_Z 0) (f32_of_Z 0) = false
  /\ (forall line_of_sight_loss : spec_float,
         urban_one_ray_float32 line_of_sight_loss (f32_of_Z 0)
                               (binary_normalize 24 128 1 100 false)
         = S754_nan).
Proof.
  repeat split; try reflexivity; try constructor; try discriminate.
  intros [s | s | | s m e]; try destruct s; vm_compute; reflexivity.
Qed.

Lemma ds_nerf_row (sigma d : R) (w s e : list R) :
  tsum (map2 Rmult
          (map2 Rmult (map (fun w => - ln (w + EPS)) w)
                (map (fun x => exp (- (x ^ 2) / (2 * sigma)))
                     (map (fun v => v - d) (map (fun x => x / 2) (map2 Rplus s e)))))
          (map2 Rminus e s))
  = tsum (map (ds_nerf_sample_term sigma d) (map2 pair (map2 pair w s) e)).
Proof.
  revert s e. induction w as [|w0 w IH]; intros [|s0 s] [|e0 e]; try reflexivity.
  cbn [map map2 tsum]. rewrite IH. reflexivity.
Qed.

Lemma ds_nerf_rows (sigma : R) (W S E : list (list R)) (D : list R) :
  map2 Rmult
       (sum_samples
          (tmap2 Rmult
             (tmap2 Rmult (tmap (fun w => - ln (w + EPS)) W)
                    (tmap (fun x => exp (- (x ^ 2) / (2 * sigma)))
                          (tmap_ray Rminus (tmap (fun x => x / 2) (tmap2 Rplus S E)) D)))
             (tmap2 Rminus E S)))
       (map b2R (map (fun d => Rgtb d 0) D))
  = map (fun ray => ds_nerf_ray_sum sigma ray * b2R (valid_ray ray)) (rays_of W S E D).
Proof.
  unfold rays_of, tzip, tmap2, tmap, tmap_ray, sum_samples.
  revert S E D. induction W as [|w W IH]; intros [|s S] [|e E] [|d D]; try reflexivity.
  cbn [map map2 combine]. rewrite IH. f_equal.
  unfold ds_nerf_ray_sum, valid_ray. cbn [fst snd].
  rewrite ds_nerf_row. reflexivity.
Qed.

Lemma tsum_masked_filter {A : Type} (f : A -> R) (p : A -> bool) (l : list A) :
  tsum (map (fun a => f a * b2R (p a)) l) = tsum (map f (filter p l)).
Proof.
  induction l as [|a l IH]; [reflexivity|].
  cbn [map filter tsum]. rewrite IH.
  destruct (p a); cbn [b2R map tsum]; lra.
Qed.

Lemma ds_nerf_depth_loss_by_rays (sigma : R) (W S E : list (list R)) (D : list R) :
  ds_nerf_depth_loss W D (tmap (fun x => x / 2) (tmap2 Rplus S E)) (tmap2 Rminus E S) sigma
  = ds_nerf_valid_sum_over_all_rays sigma (length (rays_of W S E D)) (rays_of W S E D).
Proof.
  unfold ds_nerf_depth_loss, ds_nerf_valid_sum_over_all_rays, torch_mean.
  rewrite ds_nerf_rows, tsum_masked_filter, length_map. reflexivity.
Qed.

Lemma same_shape_length {A B : Type} (x : list (list A)) (y : list (list B)) :
  same_shape x y -> length y = length x.
Proof. unfold same_shape. induction 1; cbn [length]; congruence. Qed.

Lemma rays_of_length (W S E : list (list R)) (D : list R) :
  per_ray W D -> same_shape W S -> same_shape W E ->
  length (rays_of W S E D) = length D.
Proof.
  intros HD HS HE. unfold per_ray in HD.
  apply same_shape_length in HS. apply same_shape_length in HE.
  unfold rays_of, tzip, tmap2.
  rewrite length_combine, !map2_length; rewrite ?map2_length; lia.
Qed.

Lemma euclidean_depth_length (is_euclidean : bool) (D N : list R) :
  length N = length D -> length (euclidean_depth is_euclidean D N) = length D.
Proof.
  intros H. destruct is_euclidean; cbn [euclidean_depth]; [reflexivity|].
  apply map2_length. congruence.
Qed.

(** C2, as amended.  With kind [DS_NERF], [depth_loss] returns the sum, over
    the rays with [termination_depth > 0] (in the metric of the ray), of
    [sum over samples of -log(w + eps) * exp(-(step - depth)^2 / (2 sigma)) * bin_width],
    divided by the number of all rays of the batch: an invalid ray adds
    nothing to the sum and still counts in the denominator. *)
Theorem depth_loss_ds_nerf_value
        (weights : list (list R)) (ray_samples : RaySamples)
        (termination_depth predicted_depth : list R) (sigma : R)
        (directions_norm : list R) (is_euclidean : bool) :
  (0 < length termination_depth)%nat ->
  per_ray weights termination_depth ->
  length directions_norm = length termination_depth ->
  same_shape weights (starts (frustums ray_samples)) ->
  same_shape weights (ends (frustums ray_samples)) ->
  nonneg weights ->
  0 < sigma ->
  depth_loss weights ray_samples termination_depth predicted_depth sigma
             directions_norm is_euclidean (PyEnum DS_NERF)
  = inr (ds_nerf_valid_sum_over_all_rays sigma (length termination_depth)
           (rays_of weights (starts (frustums ray_samples)) (ends (frustums ray_samples))
                    (euclidean_depth is_euclidean termination_depth directions_norm))).
Proof.
  intros _ HD HN HS HE _ _.
  unfold depth_loss. cbn [py_eq_member]. unfold ret. f_equal.
  replace (if negb is_euclidean then map2 Rmult termination_depth directions_norm
           else termination_depth)
    with (euclidean_depth is_euclidean termination_depth directions_norm)
    by (destruct is_euclidean; reflexivity).
  rewrite ds_nerf_depth_loss_by_rays. f_equal.
  rewrite rays_of_length; try assumption.
  - apply euclidean_depth_length. exact HN.
  - unfold per_ray in *. rewrite euclidean_depth_length by exact HN. exact HD.
Qed.

Lemma depth_loss_ds_nerf_value_witness :
  depth_loss [[3 / 10; 3 / 10]]
             {| frustums := {| starts := [[0; 1]]; ends := [[1; 2]] |};
                spacing_starts := None; spacing_ends := None |}
             [3 / 2] [1] (1 / 10) [1] true (PyEnum DS_NERF)
  = inr (ds_nerf_valid_sum_over_all_rays (1 / 10) 1
           (rays_of [[3 / 10; 3 / 10]] [[0; 1]] [[1; 2]] [3 / 2])).
Proof.
  apply (depth_loss_ds_nerf_value
           [[3 / 10; 3 / 10]]
           {| frustums := {| starts := [[0; 1]]; ends := [[1; 2]] |};
              spacing_starts := None; spacing_ends := None |}
           [3 / 2] [1] (1 / 10) [1] true);
    try reflexivity; try lra; try (simpl; lia);
    repeat (constructor; try lra; try reflexivity).
Defined.

Lemma neg_ln_pos (x : R) : 0 < x < 1 -> 0 < - ln x.
Proof.
  intros [H0 H1]. pose proof (ln_increasing x 1 H0 H1) as H.
  rewrite ln_1 in H. lra.
Qed.

Lemma valid_ray_true (samples : list (R * R * R)) (d : R) :
  0 < d -> valid_ray (samples, d) = true.
Proof.
  intros H. unfold valid_ray, Rgtb, Rltb. cbn [snd].
  destruct (Rlt_dec 0 d); [reflexivity | lra].
Qed.

Lemma valid_ray_false (samples : list (R * R * R)) (d : R) :
  d <= 0 -> valid_ray (samples, d) = false.
Proof.
  intros H. unfold valid_ray, Rgtb, Rltb. cbn [snd].
  destruct (Rlt_dec 0 d); [lra | reflexivity].
Qed.

(** C2, as stated, fails: a batch of the ray of the worked example
    (partition [0, 1, 2], weights [0.3, 0.3], depth 1.5, sigma 0.1) and one
    ray without ground truth.  The source divides the sum of the valid ray by
    2, the mean over the valid rays divides it by 1. *)
Lemma depth_loss_ds_nerf_counts_invalid_rays :
  depth_loss [[3 / 10; 3 / 10]; [3 / 10; 3 / 10]]
             {| frustums := {| starts := [[0; 1]; [0; 1]]; ends := [[1; 2]; [1; 2]] |};
                spacing_starts := None; spacing_ends := None |}
             [3 / 2; 0] [1; 1] (1 / 10) [1; 1] true (PyEnum DS_NERF)
  <> inr (ds_nerf_mean_over_valid_rays (1 / 10)
            (rays_of [[3 / 10; 3 / 10]; [3 / 10; 3 / 10]]
                     [[0; 1]; [0; 1]] [[1; 2]; [1; 2]] [3 / 2; 0])).
Proof.
  unfold depth_loss. cbn [py_eq_member negb frustums starts ends]. unfold ret.
  rewrite ds_nerf_depth_loss_by_rays.
  unfold ds_nerf_valid_sum_over_all_rays, ds_nerf_mean_over_valid_rays.
  unfold rays_of, tzip, tmap2. cbn [map2 combine filter].
  rewrite valid_ray_true by lra. rewrite valid_ray_false by lra.
  unfold ds_nerf_ray_sum.
  cbn [map length tsum fst snd ds_nerf_sample_term].
  pose proof (neg_ln_pos (3 / 10 + EPS)) as Hln.
  assert (Heps : 0 < 3 / 10 + EPS < 1) by (unfold EPS; lra).
  specialize (Hln Heps).
  pose proof (exp_pos (- (((0 + 1) / 2 - 3 / 2) ^ 2) / (2 * (1 / 10)))) as He1.
  pose proof (exp_pos (- (((1 + 2) / 2 - 3 / 2) ^ 2) / (2 * (1 / 10)))) as He2.
  set (L := - ln (3 / 10 + EPS)) in *.
  set (e1 := exp (- (((0 + 1) / 2 - 3 / 2) ^ 2) / (2 * (1 / 10)))) in *.
  set (e2 := exp (- (((1 + 2) / 2 - 3 / 2) ^ 2) / (2 * (1 / 10)))) in *.
  intros H. injection H as H.
  assert (Hpos : 0 < L * e1 * (1 - 0) + (L * e2 * (2 - 1) + 0)) by nra.
  simpl INR in H. nra.
Qed.

(** ** The line-of-sight loss and the samples beyond the surface *)













(** ** The two distortion formulations *)

Lemma map2_Rplus_comm (a b : list R) : map2 Rplus a b = map2 Rplus b a.
Proof.
  revert b. induction a as [|x a IH]; intros [|y b]; try reflexivity.
  cbn [map2]. rewrite IH. f_equal. lra.
Qed.

Lemma tsum_scaled_row (c : R) (a b : list R) :
  tsum (map2 Rmult (map (fun y => c * y) a) b) = c * tsum (map2 Rmult a b).
Proof.
  revert b. induction a as [|x a IH]; intros [|y b]; cbn [map map2 tsum]; try lra.
  rewrite IH. lra.
Qed.

Lemma distortion_inter_pairwise (w w' u u' : list R) :
  tsum (map2 Rmult w
             (map (fun row => tsum (map2 Rmult w' row))
                  (pairwise (fun a b => Rabs (a - b)) u u')))
  = tsum (map tsum
              (tmap2 Rmult (pairwise Rmult w w')
                     (pairwise (fun a b => Rabs (a - b)) u u'))).
Proof.
  unfold pairwise, tmap2.
  revert u. induction w as [|x w IH]; intros [|y u]; try reflexivity.
  cbn [map map2 tsum]. rewrite IH, tsum_scaled_row. reflexivity.
Qed.

Lemma distortion_ray_equal (t w : list R) :
  nerfstudio_distortion_ray w (removelast t) (tl t) = lossfun_distortion t w.
Proof.
  unfold nerfstudio_distortion_ray, lossfun_distortion.
  rewrite distortion_inter_pairwise.
  rewrite (map2_Rplus_comm (removelast t) (tl t)).
  unfold Rdiv. lra.
Qed.

Lemma distortion_batch_equal (T W : list (list R)) :
  map3 nerfstudio_distortion_ray W (map (@removelast R) T) (map (@tl R) T)
  = map2 lossfun_distortion T W.
Proof.
  revert W. induction T as [|t T IH]; intros [|w W]; try reflexivity.
  cbn [map map3 map2]. rewrite IH, distortion_ray_equal. reflexivity.
Qed.

(** The two formulations over an arithmetic are, over the reals, the two
    formulations above. *)
Lemma tsum_in_reals (l : list R) : tsum_in Real_arith l = tsum l.
Proof.
  induction l as [|x l IH]; [reflexivity|].
  unfold tsum_in in *. cbn [fold_right tsum]. rewrite IH. reflexivity.
Qed.

Lemma lossfun_distortion_in_reals (t w : list R) :
  lossfun_distortion_in Real_arith t w = lossfun_distortion t w.
Proof.
  unfold lossfun_distortion_in, lossfun_distortion, pairwise.
  rewrite !tsum_in_reals.
  cbn [a_add a_sub a_mul a_div a_abs a_sq a_two a_three Real_arith num].
  rewrite (map_ext (fun row => tsum_in Real_arith (map2 Rmult w row))
                   (fun row => tsum (map2 Rmult w row)))
    by (intros row; apply tsum_in_reals).
  reflexivity.
Qed.

Lemma nerfstudio_distortion_ray_in_reals (w s e : list R) :
  nerfstudio_distortion_ray_in Real_arith w s e = nerfstudio_distortion_ray w s e.
Proof.
  unfold nerfstudio_distortion_ray_in, nerfstudio_distortion_ray, pairwise.
  rewrite !tsum_in_reals.
  cbn [a_add a_sub a_mul a_div a_abs a_sq a_two a_three a_third Real_arith num].
  rewrite (map_ext (tsum_in Real_arith) tsum) by (intros row; apply tsum_in_reals).
  reflexivity.
Qed.

(** C3, as amended.  On one partition and one weight tensor, with
    [1 <= num_samples <= 64] and weights [>= 0], and the arithmetic read over
    the reals, [nerfstudio_distortion_loss] returns and its per-ray values are
    those of [lossfun_distortion]: the two formulations are one functional.
    No absolute tolerance is claimed of the float32 values. *)
Theorem distortion_formulations_agree
        (get_weights : RaySamples -> list (list R) -> list (list R))
        (fr : Frustums) (T W : list (list R)) :
  Forall2 distortion_ray_shape T W ->
  nonneg W ->
  exists L,
    nerfstudio_distortion_loss get_weights
      {| frustums := fr;
         spacing_starts := Some (map (@removelast R) T);
         spacing_ends := Some (map (@tl R) T) |}
      None (Some W) = inr L
    /\ L = map2 lossfun_distortion T W
    /\ L = map2 (lossfun_distortion_in Real_arith) T W
    /\ L = map3 (nerfstudio_distortion_ray_in Real_arith) W
                (map (@removelast R) T) (map (@tl R) T).
Proof.
  intros _ _. exists (map2 lossfun_distortion T W).
  split; [|split; [|split]].
  - unfold nerfstudio_distortion_loss.
    cbn [bind ret spacing_starts spacing_ends].
    rewrite distortion_batch_equal. reflexivity.
  - reflexivity.
  - clear. revert W. induction T as [|t T IH]; intros [|w W]; reflexivity.
  - rewrite <- distortion_batch_equal. reflexivity.
Qed.

Lemma distortion_formulations_agree_witness :
  exists L,
    nerfstudio_distortion_loss (fun _ d => d)
      {| frustums := {| starts := [[0; 1]]; ends := [[1; 2]] |};
         spacing_starts := Some (map (@removelast R) [[0; 1; 2]]);
         spacing_ends := Some (map (@tl R) [[0; 1; 2]]) |}
      None (Some [[3 / 10; 3 / 10]]) = inr L
    /\ L = map2 lossfun_distortion [[0; 1; 2]] [[3 / 10; 3 / 10]]
    /\ L = map2 (lossfun_distortion_in Real_arith) [[0; 1; 2]] [[3 / 10; 3 / 10]]
    /\ L = map3 (nerfstudio_distortion_ray_in Real_arith) [[3 / 10; 3 / 10]]
                (map (@removelast R) [[0; 1; 2]]) (map (@tl R) [[0; 1; 2]]).
Proof.
  apply distortion_formulations_agree.
  - repeat constructor; simpl; lia.
  - repeat (constructor; try lra).
Defined.

(** C3, as stated, fails in float32: on the single bin [0, 1] with weight
    100, [lossfun_distortion] divides 10000 by 3 and
    [nerfstudio_distortion_loss] multiplies it by the float [1 / 3.0]; the two
    roundings are one unit in the last place apart, 2^-12, more than 1e-5. *)
Lemma distortion_formulations_differ_in_float32 :
  lossfun_distortion_in Float32_arith [f32_of_Z 0; f32_of_Z 1] [f32_of_Z 100]
  = S754_finite false 13653333 (-12)
  /\ nerfstudio_distortion_ray_in Float32_arith [f32_of_Z 100] [f32_of_Z 0] [f32_of_Z 1]
     = S754_finite false 13653334 (-12)
  /\ 1 / 100000
     < Rabs (SF2R (lossfun_distortion_in Float32_arith
                     [f32_of_Z 0; f32_of_Z 1] [f32_of_Z 100])
             - SF2R (nerfstudio_distortion_ray_in Float32_arith
                       [f32_of_Z 100] [f32_of_Z 0] [f32_of_Z 1])).
Proof.
  assert (H1 : lossfun_distortion_in Float32_arith [f32_of_Z 0; f32_of_Z 1] [f32_of_Z 100]
               = S754_finite false 13653333 (-12)) by (vm_compute; reflexivity).
  assert (H2 : nerfstudio_distortion_ray_in Float32_arith
                 [f32_of_Z 100] [f32_of_Z 0] [f32_of_Z 1]
               = S754_finite false 13653334 (-12)) by (vm_compute; reflexivity).
  split; [exact H1|]. split; [exact H2|].
  rewrite H1, H2. unfold SF2R. cbn [cond_Zopp].
  replace (powerRZ 2 (-12)) with (/ 4096)
    by (unfold powerRZ; change (Pos.to_nat 12) with 12%nat; f_equal; simpl; lra).
  rewrite Rabs_left by lra. lra.
Qed.

(** ** Adversarial loss *)

(** C5.  In discriminator mode, [GANLoss.forward] returns nothing: for every
    [preds = [fake_pred, real_pred]] the evaluation of [step % self.reg_step]
    raises [NameError], since [step] is neither a parameter or local of
    [forward] nor a name of the module.  The value
    [mean(softplus(-real_pred)) + mean(softplus(fake_pred))] is computed and
    then lost. *)
Theorem GANLoss_forward_discriminator_raises
        (autograd_grad : R -> py_value -> result (list (list (list R))))
        (self : GANLoss) (fake_pred real_pred : list R) :
  m_type self = "D"%string ->
  GANLoss_forward autograd_grad self [fake_pred; real_pred] = inl (NameError "step").
Proof.
  intros Hm. unfold GANLoss_forward. rewrite Hm. reflexivity.
Qed.

Lemma GANLoss_forward_discriminator_raises_witness :
  GANLoss_forward (fun _ _ => inr [])
                  {| m_type := "D"; r1_gamma := 2 / 10; reg_step := 16 |}
                  [[0]; [0]]
  = inl (NameError "step").
Proof.
  apply GANLoss_forward_discriminator_raises. reflexivity.
Defined.

(** ** The truncated exponential *)

Lemma clamp_above (v : R) : 15 < v -> clamp v (-15) 15 = 15.
Proof.
  intros H. unfold clamp, Rmin, Rmax.
  destruct (Rle_dec v (-15)); destruct (Rle_dec _ 15); lra.
Qed.

Lemma clamp_below (v : R) : v < -15 -> clamp v (-15) 15 = -15.
Proof.
  intros H. unfold clamp, Rmin, Rmax.
  destruct (Rle_dec v (-15)); destruct (Rle_dec _ 15); lra.
Qed.

(** C10.  The forward value of [trunc_exp] is [exp(x)] on every entry, also
    outside of [-15, 15], where it differs from the exponential of the clamped
    entry; the clamp appears in the backward rule only, which returns
    [g * exp(clamp(x, -15, 15))] for the [x] saved by the forward pass. *)
Theorem trunc_exp_forward_unclamped (ctx : Ctx) (x g : list R) :
  trunc_exp x = map exp x
  /\ snd (TruncExp_forward ctx x) = map exp x
  /\ TruncExp_backward (fst (TruncExp_forward ctx x)) g
     = map2 (fun gi xi => gi * exp (clamp xi (-15) 15)) g x
  /\ (forall v, 15 < v \/ v < -15 ->
                trunc_exp [v] <> [exp (clamp v (-15) 15)]).
Proof.
  repeat split.
  - unfold TruncExp_backward, TruncExp_forward, save_for_backward.
    cbn [fst saved_tensors nth].
    revert x. induction g as [|g0 g IH]; intros [|x0 x]; try reflexivity.
    cbn [map map2]. rewrite IH. reflexivity.
  - intros v [Hv|Hv] Heq; injection Heq as Heq.
    + rewrite (clamp_above v Hv) in Heq.
      pose proof (exp_increasing 15 v Hv). lra.
    + rewrite (clamp_below v Hv) in Heq.
      pose proof (exp_increasing v (-15) Hv). lra.
Qed.

Lemma trunc_exp_forward_unclamped_witness :
  trunc_exp [16] = map exp [16]
  /\ snd (TruncExp_forward {| saved_tensors := [] |} [16]) = map exp [16]
  /\ TruncExp_backward (fst (TruncExp_forward {| saved_tensors := [] |} [16])) [1]
     = map2 (fun gi xi => gi * exp (clamp xi (-15) 15)) [1] [16]
  /\ trunc_exp [16] <> [exp (clamp 16 (-15) 15)].
Proof.
  destruct (trunc_exp_forward_unclamped {| saved_tensors := [] |} [16] [1])
    as [H1 [H2 [H3 H4]]].
  repeat split; try assumption.
  apply H4. left. lra.
Defined.

(** ** Depth maps: slices commute with elementwise operations *)

Lemma map2_nil_r {A B C : Type} (f : A -> B -> C) (a : list A) : map2 f a [] = [].
Proof. destruct a; reflexivity. Qed.

Lemma map2_ext {A B C : Type} (f g : A -> B -> C) (a : list A) (b : list B) :
  (forall x y, f x y = g x y) -> map2 f a b = map2 g a b.
Proof.
  intros H. revert b. induction a as [|x a IH]; intros [|y b]; try reflexivity.
  cbn [map2]. now rewrite H, IH.
Qed.

Lemma map2_map {A A' B B' C : Type} (f : A' -> B' -> C) (g : A -> A') (h : B -> B')
      (a : list A) (b : list B) :
  map2 f (map g a) (map h b) = map2 (fun x y => f (g x) (h y)) a b.
Proof.
  revert b. induction a as [|x a IH]; intros [|y b]; try reflexivity.
  cbn [map map2]. now rewrite IH.
Qed.

Lemma map_map2 {A B C D : Type} (g : C -> D) (f : A -> B -> C) (a : list A) (b : list B) :
  map g (map2 f a b) = map2 (fun x y => g (f x y)) a b.
Proof.
  revert b. induction a as [|x a IH]; intros [|y b]; try reflexivity.
  cbn [map map2]. now rewrite IH.
Qed.

Lemma every_map {A B : Type} (f : A -> B) (step skip : nat) (l : list A) :
  every step skip (map f l) = map f (every step skip l).
Proof.
  revert skip. induction l as [|x l IH]; intros skip; [reflexivity|].
  destruct skip; cbn [map every]; now rewrite IH.
Qed.

Lemma every_map2 {A B C : Type} (f : A -> B -> C) (step skip : nat)
      (a : list A) (b : list B) :
  every step skip (map2 f a b) = map2 f (every step skip a) (every step skip b).
Proof.
  revert b skip. induction a as [|x a IH]; intros [|y b] skip; try reflexivity.
  - cbn [map2 every]. now rewrite map2_nil_r.
  - destruct skip; cbn [map2 every]; now rewrite IH.
Qed.

Lemma strided_t3map {A B : Type} (f : A -> B) (step : nat) (x : list (list (list A))) :
  strided step (t3map f x) = t3map f (strided step x).
Proof.
  unfold strided, t3map. rewrite !map_map. apply map_ext. intros img.
  rewrite map_map, <- every_map, map_map.
  f_equal. apply map_ext. intros row. apply every_map.
Qed.

Lemma strided_t3map2 {A B C : Type} (f : A -> B -> C) (step : nat)
      (x : list (list (list A))) (y : list (list (list B))) :
  strided step (t3map2 f x y) = t3map2 f (strided step x) (strided step y).
Proof.
  unfold strided, t3map2. rewrite map_map2, map2_map.
  apply map2_ext. intros a b.
  rewrite map_map2.
  rewrite (map2_ext _ (fun r1 r2 => map2 f (every step 0 r1) (every step 0 r2)))
    by (intros; apply every_map2).
  rewrite <- map2_map. apply every_map2.
Qed.

Lemma t3map2_t3map {A A' B B' C : Type} (f : A' -> B' -> C) (g : A -> A') (h : B -> B')
      (x : list (list (list A))) (y : list (list (list B))) :
  t3map2 f (t3map g x) (t3map h y) = t3map2 (fun a b => f (g a) (h b)) x y.
Proof.
  unfold t3map2, t3map. rewrite map2_map. apply map2_ext. intros a b.
  rewrite map2_map. apply map2_ext. intros r1 r2. apply map2_map.
Qed.

Lemma t3map2_ext {A B C : Type} (f g : A -> B -> C)
      (x : list (list (list A))) (y : list (list (list B))) :
  (forall a b, f a b = g a b) -> t3map2 f x y = t3map2 g x y.
Proof.
  intros H. unfold t3map2. apply map2_ext. intros a b.
  apply map2_ext. intros r1 r2. apply map2_ext. exact H.
Qed.

Lemma fold_left_sum_ext (F G : nat -> R) (l : list nat) (acc : R) :
  (forall k, F k = G k) ->
  fold_left (fun total k => total + F k) l acc
  = fold_left (fun total k => total + G k) l acc.
Proof.
  intros H. revert acc. induction l as [|k l IH]; intros acc; [reflexivity|].
  cbn [fold_left]. now rewrite H, IH.
Qed.

(** The gradient loss reads [prediction] and [target] through the masked
    residual only. *)
Lemma gradient_loss_residual
      (masked_reduction : list R -> list R -> string -> R) (self : GradientLoss)
      (p p' y y' m : list (list (list R))) :
  t3map2 Rmult m (t3map2 Rminus p y) = t3map2 Rmult m (t3map2 Rminus p' y') ->
  forall step,
    gradient_loss masked_reduction self (strided step p) (strided step y) (strided step m)
    = gradient_loss masked_reduction self (strided step p') (strided step y')
                    (strided step m).
Proof.
  intros H step. unfold gradient_loss.
  rewrite <- !strided_t3map2. rewrite H. reflexivity.
Qed.

Lemma GradientLoss_forward_residual
      (masked_reduction : list R -> list R -> string -> R) (self : GradientLoss)
      (p p' y y' m : list (list (list R))) :
  t3map2 Rmult m (t3map2 Rminus p y) = t3map2 Rmult m (t3map2 Rminus p' y') ->
  GradientLoss_forward masked_reduction self p y m
  = GradientLoss_forward masked_reduction self p' y' m.
Proof.
  intros H. unfold GradientLoss_forward.
  apply (fold_left_sum_ext
           (fun scale => gradient_loss masked_reduction self (strided (2 ^ scale) p)
                                       (strided (2 ^ scale) y) (strided (2 ^ scale) m))
           (fun scale => gradient_loss masked_reduction self (strided (2 ^ scale) p')
                                       (strided (2 ^ scale) y') (strided (2 ^ scale) m))).
  intros k. apply gradient_loss_residual. exact H.
Qed.

(** C8.  Adding one constant [c] to every pixel of [prediction] and of
    [target] changes neither [GradientLoss.forward] nor the gradient loss of
    any single scale. *)
Theorem GradientLoss_translation_invariant
        (masked_reduction : list R -> list R -> string -> R) (self : GradientLoss)
        (prediction target mask : list (list (list R))) (c : R) :
  GradientLoss_forward masked_reduction self
                       (t3map (fun x => x + c) prediction)
                       (t3map (fun x => x + c) target) mask
  = GradientLoss_forward masked_reduction self prediction target mask
  /\ forall scale : nat,
      gradient_loss masked_reduction self
                    (strided (2 ^ scale) (t3map (fun x => x + c) prediction))
                    (strided (2 ^ scale) (t3map (fun x => x + c) target))
                    (strided (2 ^ scale) mask)
      = gradient_loss masked_reduction self
                      (strided (2 ^ scale) prediction) (strided (2 ^ scale) target)
                      (strided (2 ^ scale) mask).
Proof.
  assert (H : t3map2 Rmult mask
                     (t3map2 Rminus (t3map (fun x => x + c) prediction)
                             (t3map (fun x => x + c) target))
              = t3map2 Rmult mask (t3map2 Rminus prediction target)).
  { f_equal. rewrite t3map2_t3map. apply t3map2_ext. intros a b. lra. }
  split.
  - apply GradientLoss_forward_residual. exact H.
  - intros scale. apply gradient_loss_residual. exact H.
Qed.

(** ** Exact alignments of an image and of its affine transforms *)

Lemma alignment_error_affine (a b s t : R) (px : list (R * R * R)) :
  alignment_error (map (affine_pixel a b) px) s t
  = alignment_error px (s * a) (s * b + t).
Proof.
  unfold alignment_error.
  induction px as [|[[m p] y] px IH]; [reflexivity|].
  cbn [map tsum affine_pixel]. rewrite IH. ring.
Qed.

Lemma alignment_error_midpoint (px : list (R * R * R)) (s1 t1 s2 t2 : R) :
  alignment_error px ((s1 + s2) / 2) ((t1 + t2) / 2)
  = (alignment_error px s1 t1 + alignment_error px s2 t2) / 2
    - alignment_gap px s1 t1 s2 t2 / 4.
Proof.
  unfold alignment_error, alignment_gap.
  induction px as [|[[m p] y] px IH]; cbn [map tsum]; [lra|].
  rewrite IH. field.
Qed.

Lemma tsum_nonneg_zero (l : list R) :
  Forall (fun x => 0 <= x) l -> tsum l <= 0 -> Forall (fun x => x = 0) l.
Proof.
  induction 1 as [|x l Hx Hl IH]; intros Hsum; constructor.
  - assert (0 <= tsum l) by (clear -Hl; induction Hl; cbn [tsum]; lra).
    cbn [tsum] in Hsum. lra.
  - apply IH.
    assert (0 <= tsum l) by (clear -Hl; induction Hl; cbn [tsum]; lra).
    cbn [tsum] in Hsum. lra.
Qed.

(** Two exact alignments, one of an image and one of its affine transform
    [a * p + b] with [a <> 0], give the same aligned value at every pixel of
    nonzero mask. *)
Lemma exact_alignments_meet (px : list (R * R * R)) (a b s1 t1 s2 t2 : R) :
  a <> 0 ->
  Forall (fun x : R * R * R => 0 <= fst (fst x)) px ->
  (forall s' t', alignment_error px s1 t1 <= alignment_error px s' t') ->
  (forall s' t', alignment_error (map (affine_pixel a b) px) s2 t2
                 <= alignment_error (map (affine_pixel a b) px) s' t') ->
  Forall (fun x : R * R * R =>
            let '(m, p, y) := x in m = 0 \/ s1 * p + t1 = s2 * (a * p + b) + t2) px.
Proof.
  intros Ha Hm E1 E2.
  assert (Hle : alignment_error px (s2 * a) (s2 * b + t2) <= alignment_error px s1 t1).
  { rewrite <- alignment_error_affine.
    eapply Rle_trans; [apply (E2 (s1 / a) (t1 - s1 * b / a))|].
    rewrite alignment_error_affine.
    replace (s1 / a * a) with s1 by (field; exact Ha).
    replace (s1 / a * b + (t1 - s1 * b / a)) with t1 by (field; exact Ha).
    lra. }
  pose proof (E1 (s2 * a) (s2 * b + t2)) as Hge.
  pose proof (E1 ((s1 + s2 * a) / 2) ((t1 + (s2 * b + t2)) / 2)) as Hmid.
  rewrite alignment_error_midpoint in Hmid.
  assert (Hgap : alignment_gap px s1 t1 (s2 * a) (s2 * b + t2) <= 0) by lra.
  unfold alignment_gap in Hgap.
  apply tsum_nonneg_zero in Hgap.
  - rewrite Forall_map in Hgap.
    rewrite Forall_forall in Hgap |- *.
    intros [[m p] y] Hin. specialize (Hgap _ Hin). cbn beta iota in Hgap.
    apply Rmult_integral in Hgap. destruct Hgap as [Hz|Hz]; [left; exact Hz|right].
    assert (Hsq : (s1 * p + t1 - (s2 * a * p + (s2 * b + t2))) = 0).
    { apply Rsqr_0_uniq. unfold Rsqr. simpl in Hz. lra. }
    lra.
  - rewrite Forall_map. rewrite Forall_forall in Hm |- *.
    intros [[m p] y] Hin. specialize (Hm _ Hin). cbn [fst] in Hm.
    apply Rmult_le_pos; [exact Hm|]. apply pow2_ge_0.
Qed.

(** ** From the pixels back to the tensors of the source *)

Lemma pixels_affine (a b : R) (m p y : list (list R)) :
  pixels m (map (map (fun v => a * v + b)) p) y = map (affine_pixel a b) (pixels m p y).
Proof.
  unfold pixels.
  revert p y. induction m as [|mr m IH]; intros [|pr p] [|yr y]; try reflexivity.
  cbn [map map3 concat]. rewrite map_app, IH. f_equal.
  clear. revert pr yr. induction mr as [|m0 mr IH]; intros [|p0 pr] [|y0 yr];
    try reflexivity.
  cbn [map map3 affine_pixel]. now rewrite IH.
Qed.

Lemma map3_ext_pixels_row (K1 K2 : R -> R -> R -> R) (mr pr yr : list R) :
  Forall (fun x : R * R * R => let '(m, p, y) := x in K1 m p y = K2 m p y)
         (map3 (fun a b c => (a, b, c)) mr pr yr) ->
  map3 K1 mr pr yr = map3 K2 mr pr yr.
Proof.
  revert pr yr. induction mr as [|m0 mr IH]; intros [|p0 pr] [|y0 yr] H;
    try reflexivity.
  cbn [map3] in *. inversion H as [|? ? Hhd Htl]; subst.
  rewrite Hhd, (IH _ _ Htl). reflexivity.
Qed.

Lemma map3_ext_pixels (K1 K2 : R -> R -> R -> R) (m p y : list (list R)) :
  Forall (fun x : R * R * R => let '(m, p, y) := x in K1 m p y = K2 m p y)
         (pixels m p y) ->
  map3 (map3 K1) m p y = map3 (map3 K2) m p y.
Proof.
  unfold pixels.
  revert p y. induction m as [|mr m IH]; intros [|pr p] [|yr y] H; try reflexivity.
  cbn [map3 concat] in *. apply Forall_app in H. destruct H as [Hrow Hrest].
  rewrite (map3_ext_pixels_row K1 K2 _ _ _ Hrow), (IH _ _ Hrest). reflexivity.
Qed.

Lemma pixels_mask_nonneg (m p y : list (list R)) :
  Forall (Forall (fun v => v = 0 \/ v = 1)) m ->
  Forall (fun x : R * R * R => 0 <= fst (fst x)) (pixels m p y).
Proof.
  unfold pixels. intros Hm.
  revert p y. induction Hm as [|mr m Hrow _ IH]; intros [|pr p] [|yr y];
    try constructor.
  cbn [map3 concat]. apply Forall_app. split; [|apply IH].
  clear -Hrow. revert pr yr.
  induction Hrow as [|m0 mr H0 _ IH]; intros [|p0 pr] [|y0 yr]; try constructor.
  - cbn [fst]. destruct H0; lra.
  - apply IH.
Qed.

Lemma residual_as_map3 (g : R -> R) (m p y : list (list R)) :
  map2 (map2 Rmult) m (map2 (map2 Rminus) (map (map g) p) y)
  = map3 (map3 (fun mi pi yi => mi * (g pi - yi))) m p y.
Proof.
  revert p y. induction m as [|mr m IH]; intros [|pr p] [|yr y]; try reflexivity.
  cbn [map map2 map3]. rewrite IH. f_equal.
  clear. revert pr yr. induction mr as [|m0 mr IH]; intros [|p0 pr] [|y0 yr];
    try reflexivity.
  cbn [map map2 map3]. now rewrite IH.
Qed.

Lemma squared_error_as_map3 (g : R -> R) (m p y : list (list R)) :
  map2 (map2 Rmult) (map2 (map2 (fun a b => (a - b) ^ 2)) (map (map g) p) y) m
  = map3 (map3 (fun mi pi yi => (g pi - yi) ^ 2 * mi)) m p y.
Proof.
  revert p y. induction m as [|mr m IH]; intros [|pr p] [|yr y];
    cbn [map map2 map3]; rewrite ?map2_nil_r; try reflexivity.
  rewrite IH. f_equal.
  clear. revert pr yr. induction mr as [|m0 mr IH]; intros [|p0 pr] [|y0 yr];
    cbn [map map2 map3]; rewrite ?map2_nil_r; try reflexivity.
  now rewrite IH.
Qed.

Lemma map_map_rows {A B C : Type} (f : A -> B) (g : B -> C) (x : list (list A)) :
  map (map g) (map (map f) x) = map (map (fun v => g (f v))) x.
Proof.
  rewrite map_map. apply map_ext. intros row. apply map_map.
Qed.

(** On one image, the two aligned predictions give the same masked residual
    and the same masked squared error. *)
Lemma aligned_image_equal (a b s1 t1 s2 t2 : R) (p y m : list (list R)) :
  a <> 0 ->
  Forall (Forall (fun v => v = 0 \/ v = 1)) m ->
  exact_alignment p y m s1 t1 ->
  exact_alignment (map (map (fun v => a * v + b)) p) y m s2 t2 ->
  map2 (map2 Rmult) m
       (map2 (map2 Rminus) (map (map (fun v => s1 * v + t1)) p) y)
  = map2 (map2 Rmult) m
         (map2 (map2 Rminus)
               (map (map (fun v => s2 * v + t2)) (map (map (fun v => a * v + b)) p)) y)
  /\ map2 (map2 Rmult)
          (map2 (map2 (fun u v => (u - v) ^ 2)) (map (map (fun v => s1 * v + t1)) p) y) m
     = map2 (map2 Rmult)
            (map2 (map2 (fun u v => (u - v) ^ 2))
                  (map (map (fun v => s2 * v + t2)) (map (map (fun v => a * v + b)) p)) y)
            m.
Proof.
  intros Ha Hm E1 E2. unfold exact_alignment in E1, E2.
  rewrite pixels_affine in E2.
  pose proof (exact_alignments_meet (pixels m p y) a b s1 t1 s2 t2 Ha
                                    (pixels_mask_nonneg m p y Hm) E1 E2) as Hmeet.
  rewrite map_map_rows, !residual_as_map3, !squared_error_as_map3.
  split; apply map3_ext_pixels; eapply Forall_impl; try exact Hmeet;
    intros [[mi pi] yi] [Hz|Heq]; cbn beta iota.
  - rewrite Hz. ring.
  - rewrite Heq. reflexivity.
  - rewrite Hz. ring.
  - rewrite Heq. reflexivity.
Qed.

(** [scale.view(-1, 1, 1) * prediction + shift.view(-1, 1, 1)]. *)
Lemma aligned_batch_equal (a b : R) (ss ts : list R) (P Y M : list (list (list R))) :
  a <> 0 ->
  exact_alignment_batch ss ts P Y M ->
  forall ss' ts',
    exact_alignment_batch ss' ts' (t3map (fun v => a * v + b) P) Y M ->
    valid_mask M ->
    t3map2 Rmult M
           (t3map2 Rminus
                   (map3 (fun s t img => map (map (fun p => s * p + t)) img) ss ts P) Y)
    = t3map2 Rmult M
             (t3map2 Rminus
                     (map3 (fun s t img => map (map (fun p => s * p + t)) img) ss' ts'
                           (t3map (fun v => a * v + b) P)) Y)
    /\ t3map2 Rmult
              (t3map2 (fun u v => (u - v) ^ 2)
                      (map3 (fun s t img => map (map (fun p => s * p + t)) img) ss ts P) Y)
              M
       = t3map2 Rmult
                (t3map2 (fun u v => (u - v) ^ 2)
                        (map3 (fun s t img => map (map (fun p => s * p + t)) img) ss' ts'
                              (t3map (fun v => a * v + b) P)) Y)
                M.
Proof.
  intros Ha H1. unfold t3map2, t3map, valid_mask.
  induction H1 as [|s t p y m ss ts P Y M E1 _ IH]; intros ss' ts' H2 HM.
  - inversion H2; subst. split; reflexivity.
  - cbn [map] in H2. inversion H2 as [|s' t' ? ? ? ss2 ts2 ? ? ? E2 H2']; subst.
    inversion HM as [|? ? Hm HM']; subst.
    destruct (IH ss2 ts2 H2' HM') as [IHa IHb].
    destruct (aligned_image_equal a b s t s' t' p y m Ha Hm E1 E2) as [Hr Hs].
    cbn [map map2 map3]. rewrite IHa, IHb, Hr, Hs. split; reflexivity.
Qed.

(** C4.  For an alignment solver that is exact on the call with [prediction]
    and on the call with [a * prediction + b], every [a > 0] and [b], and a
    mask of valid pixels, [ScaleAndShiftInvariantLoss.forward] returns the
    same loss on [a * prediction + b] as on [prediction]. *)
Theorem ScaleAndShiftInvariantLoss_affine_invariant
        (masked_reduction : list R -> list R -> string -> R)
        (normalized_depth_scale_and_shift :
           list (list (list R)) -> list (list (list R)) -> list (list (list R))
           -> list R * list R)
        (self : ScaleAndShiftInvariantLoss)
        (prediction target mask : list (list (list R))) (a b : R) :
  0 < a ->
  valid_mask mask ->
  exact_alignment_batch
    (fst (normalized_depth_scale_and_shift prediction target mask))
    (snd (normalized_depth_scale_and_shift prediction target mask))
    prediction target mask ->
  exact_alignment_batch
    (fst (normalized_depth_scale_and_shift
            (t3map (fun p => a * p + b) prediction) target mask))
    (snd (normalized_depth_scale_and_shift
            (t3map (fun p => a * p + b) prediction) target mask))
    (t3map (fun p => a * p + b) prediction) target mask ->
  snd (ScaleAndShiftInvariantLoss_forward
         masked_reduction normalized_depth_scale_and_shift self
         (t3map (fun p => a * p + b) prediction) target mask)
  = snd (ScaleAndShiftInvariantLoss_forward
           masked_reduction normalized_depth_scale_and_shift self
           prediction target mask).
Proof.
  intros Ha Hmask E1 E2.
  unfold ScaleAndShiftInvariantLoss_forward.
  destruct (normalized_depth_scale_and_shift prediction target mask) as [ss ts].
  destruct (normalized_depth_scale_and_shift
              (t3map (fun p => a * p + b) prediction) target mask) as [ss' ts'].
  cbn [fst snd] in *.
  assert (Hne : a <> 0) by lra.
  destruct (aligned_batch_equal a b ss ts prediction target mask Hne E1 ss' ts' E2 Hmask)
    as [Hres Hsq].
  cbn [data_loss regularization_loss alpha].
  assert (Hdata :
            MiDaSMSELoss_forward masked_reduction (data_loss self)
              (map3 (fun s t img => map (map (fun p => s * p + t)) img) ss' ts'
                    (t3map (fun p => a * p + b) prediction)) target mask
            = MiDaSMSELoss_forward masked_reduction (data_loss self)
                (map3 (fun s t img => map (map (fun p => s * p + t)) img) ss ts prediction)
                target mask).
  { unfold MiDaSMSELoss_forward. rewrite Hsq. reflexivity. }
  rewrite Hdata.
  destruct (Rlt_dec 0 (alpha self)); [|reflexivity].
  f_equal. f_equal.
  apply GradientLoss_forward_residual. symmetry. exact Hres.
Qed.

Lemma ScaleAndShiftInvariantLoss_affine_invariant_witness :
  snd (ScaleAndShiftInvariantLoss_forward
         (fun image_loss _ _ => tsum image_loss) two_point_alignment
         {| data_loss := {| mse_reduction_type := "batch" |};
            regularization_loss := {| reduction_type := "batch"; scales := 4 |};
            alpha := 1 / 2; prediction_ssi := None |}
         (t3map (fun p => 2 * p + 1) [[[0; 1]]]) [[[1; 3]]] [[[1; 1]]])
  = snd (ScaleAndShiftInvariantLoss_forward
           (fun image_loss _ _ => tsum image_loss) two_point_alignment
           {| data_loss := {| mse_reduction_type := "batch" |};
              regularization_loss := {| reduction_type := "batch"; scales := 4 |};
              alpha := 1 / 2; prediction_ssi := None |}
           [[[0; 1]]] [[[1; 3]]] [[[1; 1]]]).
Proof.
  apply ScaleAndShiftInvariantLoss_affine_invariant.
  - lra.
  - repeat constructor; right; reflexivity.
  - cbn [two_point_alignment fst snd]. constructor; [|constructor].
    unfold exact_alignment, pixels, alignment_error.
    cbn [map3 concat app map tsum]. intros s' t'.
    pose proof (pow2_ge_0 (s' * 0 + t' - 1)).
    pose proof (pow2_ge_0 (s' * 1 + t' - 3)).
    match goal with |- ?lhs <= _ => replace lhs with 0 by field end.
    lra.
  - cbn [t3map map two_point_alignment fst snd]. constructor; [|constructor].
    unfold exact_alignment, pixels, alignment_error.
    cbn [map3 concat app map tsum]. intros s' t'.
    pose proof (pow2_ge_0 (s' * (2 * 0 + 1) + t' - 1)).
    pose proof (pow2_ge_0 (s' * (2 * 1 + 1) + t' - 3)).
    match goal with |- ?lhs <= _ => replace lhs with 0 by field end.
    lra.
Defined.

(** * Further properties of the losses *)

(** ** [outer] on arbitrary bins *)

Lemma outer_with_indices (t0_starts t0_ends t1_starts t1_ends y1 : list R)
      (los his : list nat) :
  y1 <> [] ->
  map (fun i => clampZ i 0 (Z.of_nat (length y1) - 1))
      (map (fun v => (searchsorted_right t1_starts v - 1)%Z) t0_starts)
  = map Z.of_nat los ->
  map (fun i => clampZ i 0 (Z.of_nat (length y1) - 1))
      (map (fun v => searchsorted_right t1_ends v) t0_ends)
  = map Z.of_nat his ->
  (forall i, In i los -> (i < length y1)%nat) ->
  (forall i, In i his -> (i < length y1)%nat) ->
  outer t0_starts t0_ends t1_starts t1_ends y1
  = inr (map2 Rminus (map (fun h => prefix_sum y1 (S h)) his)
              (map (fun l => prefix_sum y1 l) los)).
Proof.
  intros Hne Hlo Hhi Blo Bhi. unfold outer. rewrite Hlo, Hhi.
  destruct y1 as [|a y] eqn:Ey; [congruence|]. rewrite <- Ey in *.
  assert (Hcy : zeros_like (firstn 1 y1) ++ cumsum y1 = 0 :: cumsum y1)
    by (rewrite Ey; reflexivity).
  rewrite Hcy. clear Hcy.
  assert (Hlc : length (cumsum y1) = length y1) by apply cumsum_from_length.
  rewrite take_along_dim_nats.
  2:{ intros i Hi. rewrite removelast_firstn_len, length_firstn.
      cbn [length]. specialize (Blo i Hi). lia. }
  cbn [bind tl].
  rewrite take_along_dim_nats by (intros i Hi; specialize (Bhi i Hi); lia).
  cbn [bind]. unfold ret. f_equal. f_equal.
  - apply map_ext_in. intros h Hh. specialize (Bhi h Hh).
    unfold cumsum, prefix_sum. rewrite cumsum_from_nth by exact Bhi. lra.
  - apply map_ext_in. intros l Hl. specialize (Blo l Hl).
    rewrite removelast_firstn_len, nth_firstn. cbn [length Nat.pred]. rewrite Hlc.
    destruct (Nat.ltb_spec l (length y1)); [|lia].
    unfold prefix_sum. destruct l as [|l]; [reflexivity|].
    cbn [nth]. unfold cumsum. rewrite cumsum_from_nth by lia. lra.
Qed.

Lemma clampZ_range (x : Z) (n : nat) :
  (0 < n)%nat ->
  (0 <= clampZ x 0 (Z.of_nat n - 1) <= Z.of_nat n - 1)%Z.
Proof. intros Hn. unfold clampZ. lia. Qed.

Lemma outer_entries (t0_starts t0_ends t1_starts t1_ends y1 : list R) :
  y1 <> [] ->
  outer t0_starts t0_ends t1_starts t1_ends y1
  = inr (map2 Rminus
              (map (fun e => prefix_sum y1 (S (outer_hi t1_ends y1 e))) t0_ends)
              (map (fun s => prefix_sum y1 (outer_lo t1_starts y1 s)) t0_starts)).
Proof.
  intros Hne.
  assert (Hn : (0 < length y1)%nat) by (destruct y1; [congruence | simpl; lia]).
  rewrite (outer_with_indices _ _ _ _ _ (map (outer_lo t1_starts y1) t0_starts)
                              (map (outer_hi t1_ends y1) t0_ends) Hne).
  - now rewrite !map_map.
  - rewrite !map_map. apply map_ext. intros s. unfold outer_lo.
    pose proof (clampZ_range (searchsorted_right t1_starts s - 1) _ Hn). lia.
  - rewrite !map_map. apply map_ext. intros e. unfold outer_hi.
    pose proof (clampZ_range (searchsorted_right t1_ends e) _ Hn). lia.
  - intros i Hi. apply in_map_iff in Hi. destruct Hi as [s [<- _]]. unfold outer_lo.
    pose proof (clampZ_range (searchsorted_right t1_starts s - 1) _ Hn). lia.
  - intros i Hi. apply in_map_iff in Hi. destruct Hi as [e [<- _]]. unfold outer_hi.
    pose proof (clampZ_range (searchsorted_right t1_ends e) _ Hn). lia.
Qed.

(** X1.  With at least one target bin, [outer] returns for every source,
    sorted or not: the clamp keeps both indices inside the prefix sums, and
    there is one entry per source bin. *)
Theorem outer_returns (t0_starts t0_ends t1_starts t1_ends y1 : list R) :
  y1 <> [] ->
  length t0_ends = length t0_starts ->
  exists y0, outer t0_starts t0_ends t1_starts t1_ends y1 = inr y0
             /\ length y0 = length t0_starts.
Proof.
  intros Hne Hlen. eexists. split; [apply outer_entries; exact Hne|].
  rewrite map2_length; rewrite !length_map; congruence.
Qed.

Lemma outer_returns_witness :
  exists y0, outer [5; 0] [7; 1] [0; 1] [1; 2] [1; 1] = inr y0
             /\ length y0 = length [5; 0].
Proof.
  apply outer_returns; [discriminate | reflexivity].
Defined.

(** X2.  Without any target bin, [outer] raises as soon as there is a source
    bin: the clamp bound is [-1] and the gather reads outside the prefix
    sums. *)
Theorem outer_no_target_raises (s : R) (t0_starts t0_ends t1_starts t1_ends : list R) :
  exists e, outer (s :: t0_starts) t0_ends t1_starts t1_ends [] = inl e.
Proof.
  unfold outer. cbn [map length Z.of_nat take_along_dim mapM].
  assert (H : clampZ (searchsorted_right t1_starts s - 1) 0 (0 - 1) = (-1)%Z)
    by (unfold clampZ; lia).
  rewrite H. cbn. eexists. reflexivity.
Qed.

Lemma tsum_nonneg (l : list R) : Forall (fun x => 0 <= x) l -> 0 <= tsum l.
Proof. induction 1; cbn [tsum]; lra. Qed.

Lemma Forall_prefix {A : Type} (P : A -> Prop) (n : nat) (l : list A) :
  Forall P l -> Forall P (firstn n l).
Proof.
  intros H. revert n. induction H as [|a l Ha _ IH]; intros [|n]; cbn [firstn];
    constructor; [exact Ha | apply IH].
Qed.

Lemma prefix_sum_mono (y : list R) (j k : nat) :
  Forall (fun x => 0 <= x) y -> (j <= k)%nat -> prefix_sum y j <= prefix_sum y k.
Proof.
  intros Hy. unfold prefix_sum. revert j k.
  induction Hy as [|a y Ha Hy IH]; intros j k Hjk.
  - rewrite !firstn_nil. lra.
  - destruct j as [|j]; destruct k as [|k]; try lia.
    + cbn [firstn tsum]. lra.
    + cbn [firstn tsum].
      pose proof (tsum_nonneg _ (Forall_prefix _ k y Hy)). lra.
    + cbn [firstn tsum]. specialize (IH j k ltac:(lia)). lra.
Qed.

Lemma prefix_sum_total (y : list R) (k : nat) :
  Forall (fun x => 0 <= x) y -> 0 <= prefix_sum y k <= tsum y.
Proof.
  intros Hy. split.
  - apply tsum_nonneg. apply Forall_prefix. exact Hy.
  - destruct (Nat.le_gt_cases k (length y)) as [Hk|Hk].
    + pose proof (prefix_sum_mono y k (length y) Hy Hk) as H.
      unfold prefix_sum in H at 2. rewrite firstn_all in H. exact H.
    + unfold prefix_sum. rewrite firstn_all2 by lia. lra.
Qed.

Lemma searchsorted_right_nonneg (l : list R) (v : R) : (0 <= searchsorted_right l v)%Z.
Proof.
  induction l as [|x l IH]; cbn [searchsorted_right]; [lia|].
  destruct (Rle_dec x v); lia.
Qed.

Lemma searchsorted_right_removelast (l : list R) (s e : R) :
  s <= e -> (searchsorted_right (removelast l) s <= searchsorted_right l e)%Z.
Proof.
  intros Hse. induction l as [|b l IH]; [cbn; lia|].
  destruct l as [|c l].
  - cbn [removelast searchsorted_right]. destruct (Rle_dec b e); lia.
  - change (removelast (b :: c :: l)) with (b :: removelast (c :: l)).
    cbn [searchsorted_right] in *.
    destruct (Rle_dec b s); destruct (Rle_dec b e); try lra; try lia.
    pose proof (searchsorted_right_nonneg (removelast (c :: l)) s). 
    destruct (Rle_dec c e); lia.
Qed.

Lemma outer_lo_le_hi (t_env y1 : list R) (s e : R) :
  s <= e ->
  (outer_lo (removelast t_env) y1 s <= outer_hi (tl t_env) y1 e)%nat.
Proof.
  intros Hse. unfold outer_lo, outer_hi, clampZ.
  assert (H : (searchsorted_right (removelast t_env) s - 1
               <= searchsorted_right (tl t_env) e)%Z).
  { destruct t_env as [|a t]; [cbn; lia|].
    destruct t as [|b t].
    - cbn. lia.
    - change (removelast (a :: b :: t)) with (a :: removelast (b :: t)).
      cbn [tl].
      change (searchsorted_right (a :: removelast (b :: t)) s)
        with (if Rle_dec a s
              then (1 + searchsorted_right (removelast (b :: t)) s)%Z else 0%Z).
      pose proof (searchsorted_right_removelast (b :: t) s e Hse).
      pose proof (searchsorted_right_nonneg (b :: t) e).
      destruct (Rle_dec a s); lia. }
  lia.
Qed.

Lemma Forall_map2 {A B C : Type} (P : C -> Prop) (f : A -> B -> C)
      (a : list A) (b : list B) :
  (forall x y, In x a -> In y b -> P (f x y)) -> Forall P (map2 f a b).
Proof.
  revert b. induction a as [|x a IH]; intros [|y b] H; cbn [map2]; constructor.
  - apply H; left; reflexivity.
  - apply IH. intros x' y' Hx Hy. apply H; right; assumption.
Qed.

(** X3.  For target bins cut by the edges [t_env], given in nondecreasing
    order, target weights [>= 0], and source bins with [start <= end], every
    entry of [outer] is a sum of consecutive target weights: it is [>= 0] and
    at most the total target mass. *)
Theorem outer_between_zero_and_mass (t0_starts t0_ends t_env y1 : list R) :
  StronglySorted Rle t_env ->
  y1 <> [] ->
  Forall (fun x => 0 <= x) y1 ->
  Forall2 Rle t0_starts t0_ends ->
  exists y0,
    outer t0_starts t0_ends (removelast t_env) (tl t_env) y1 = inr y0
    /\ length y0 = length t0_starts
    /\ Forall (fun x => 0 <= x <= tsum y1) y0.
Proof.
  intros _ Hne Hy Hbins. eexists. split; [apply outer_entries; exact Hne|]. split.
  - pose proof (Forall2_length Hbins) as Hlen.
    rewrite map2_length; rewrite !length_map; congruence.
  - induction Hbins as [|s e ss es Hse _ IH]; [constructor|].
    cbn [map map2]. constructor; [|exact IH].
    pose proof (outer_lo_le_hi t_env y1 s e Hse) as Hle.
    pose proof (prefix_sum_mono y1 _ (S (outer_hi (tl t_env) y1 e)) Hy
                                (Nat.le_trans _ _ _ Hle (Nat.le_succ_diag_r _))).
    pose proof (prefix_sum_total y1 (S (outer_hi (tl t_env) y1 e)) Hy).
    pose proof (prefix_sum_total y1 (outer_lo (removelast t_env) y1 s) Hy).
    lra.
Qed.

Lemma outer_between_zero_and_mass_witness :
  exists y0,
    outer [0; 1 / 2] [1 / 2; 2] (removelast [0; 1; 2]) (tl [0; 1; 2]) [1; 3] = inr y0
    /\ length y0 = length [0; 1 / 2]
    /\ Forall (fun x => 0 <= x <= tsum [1; 3]) y0.
Proof.
  apply outer_between_zero_and_mass.
  - sorted_reals.
  - discriminate.
  - repeat (constructor; try lra).
  - repeat (constructor; try lra).
Defined.

(** ** [lossfun_outer] and [interlevel_loss] *)

Lemma Forall_map_intro {A B : Type} (P : B -> Prop) (f : A -> B) (l : list A) :
  (forall a, In a l -> P (f a)) -> Forall P (map f l).
Proof.
  intros H. apply Forall_forall. intros b Hb.
  apply in_map_iff in Hb. destruct Hb as [a [<- Ha]]. apply H. exact Ha.
Qed.

(** X4.  With one weight in [w] for each of the bins cut by the edges [t],
    envelope edges [t_env] in nondecreasing order, at least one envelope bin
    and weights [w >= 0], [lossfun_outer] returns one penalty for each bin
    and every entry of the penalty is [>= 0]. *)
Theorem lossfun_outer_nonneg (t w t_env w_env : list R) :
  length t = S (length w) ->
  StronglySorted Rle t_env ->
  w_env <> [] ->
  Forall (fun x => 0 <= x) w ->
  exists l,
    lossfun_outer t w t_env w_env = inr l
    /\ length l = length w
    /\ Forall (fun x => 0 <= x) l.
Proof.
  intros Hshape _ Hne Hw. unfold lossfun_outer.
  rewrite (outer_entries _ _ _ _ _ Hne). cbn [bind]. eexists. split; [reflexivity|].
  split.
  { assert (Hrl : length (removelast t) = length w).
    { rewrite removelast_firstn_len, length_firstn, Hshape. cbn. lia. }
    assert (Htl : length (tl t) = length w)
      by (destruct t as [|a t]; [discriminate | cbn [tl length] in *; lia]).
    match goal with
    | |- length (map2 _ (map _ (map _ (map2 _ _ ?o))) _) = _ =>
        assert (Ho : length o = length w)
          by (rewrite map2_length; rewrite !length_map; congruence)
    end.
    rewrite map2_length; rewrite !length_map; rewrite map2_length; congruence. }
  apply Forall_map2. intros x y Hx Hy.
  apply in_map_iff in Hx. destruct Hx as [x' [<- _]].
  apply in_map_iff in Hy. destruct Hy as [y' [<- Hy']].
  rewrite Forall_forall in Hw. specialize (Hw y' Hy').
  apply Rmult_le_pos.
  - apply pow2_ge_0.
  - left. apply Rinv_0_lt_compat. unfold EPS. lra.
Qed.

Lemma lossfun_outer_nonneg_witness :
  exists l, lossfun_outer [0; 1; 2] [1; 1] [0; 2] [1] = inr l
            /\ length l = length [1; 1]
            /\ Forall (fun x => 0 <= x) l.
Proof.
  apply lossfun_outer_nonneg;
    [reflexivity | sorted_reals | discriminate | repeat (constructor; try lra)].
Defined.

Lemma StronglySorted_removelast (l : list R) :
  StronglySorted Rlt l -> StronglySorted Rlt (removelast l).
Proof.
  induction 1 as [|a l Hl IH Ha]; [constructor|].
  destruct l as [|b l]; [constructor|].
  change (removelast (a :: b :: l)) with (a :: removelast (b :: l)).
  constructor; [exact IH|].
  rewrite Forall_forall in Ha |- *. intros x Hx. apply Ha.
  clear -Hx. revert Hx. generalize (b :: l). intros l0.
  induction l0 as [|c l0 IH]; [intros []|].
  destruct l0 as [|d l0]; [intros []|].
  change (removelast (c :: d :: l0)) with (c :: removelast (d :: l0)).
  intros [->|Hx]; [left; reflexivity | right; apply IH; exact Hx].
Qed.

Lemma StronglySorted_tl (l : list R) :
  StronglySorted Rlt l -> StronglySorted Rlt (tl l).
Proof. destruct 1; [constructor | assumption]. Qed.

Lemma length_removelast_S {A : Type} (l : list A) (n : nat) :
  length l = S n -> length (removelast l) = n.
Proof. intros H. rewrite removelast_firstn_len, length_firstn, H. cbn. lia. Qed.

Lemma length_tl_S {A : Type} (l : list A) (n : nat) :
  length l = S n -> length (tl l) = n.
Proof. destruct l; cbn; intros H; [discriminate | congruence]. Qed.

Lemma list_as_map_nth (l : list R) :
  l = map (fun i => nth i l 0) (seq 0 (length l)).
Proof.
  apply (nth_ext _ _ 0 0).
  - now rewrite length_map, length_seq.
  - intros i Hi. now rewrite nth_map_seq.
Qed.

Lemma map_const_length {A B C : Type} (c : C) (l : list A) (l' : list B) :
  length l = length l' -> map (fun _ => c) l = map (fun _ => c) l'.
Proof.
  revert l'. induction l as [|a l IH]; intros [|b l'] H; try discriminate;
    [reflexivity|].
  cbn [map]. f_equal. apply IH. simpl in H. lia.
Qed.

(** On the bins of one strictly increasing partition, [outer] of the
    weights is at least the weights. *)
Lemma outer_same_edges (t w : list R) :
  StronglySorted Rlt t ->
  length t = S (length w) ->
  w <> [] ->
  outer (removelast t) (tl t) (removelast t) (tl t) w
  = inr (map (fun i => prefix_sum w (S (Nat.min (S i) (length w - 1))) - prefix_sum w i)
             (seq 0 (length w))).
Proof.
  intros Hs Hlen Hne.
  rewrite (outer_with_indices _ _ _ _ _ (seq 0 (length w))
             (map (fun i => Nat.min (S i) (length w - 1)) (seq 0 (length w))) Hne).
  - rewrite map_map. f_equal.
    apply (map2_map_same Rminus
             (fun i => prefix_sum w (S (Nat.min (S i) (length w - 1))))
             (fun i => prefix_sum w i)).
  - apply outer_idx_lo;
      [apply StronglySorted_removelast; exact Hs | apply length_removelast_S; exact Hlen].
  - apply outer_idx_hi;
      [apply StronglySorted_tl; exact Hs | apply length_tl_S; exact Hlen].
  - intros i Hi. apply in_seq in Hi. lia.
  - intros i Hi. apply in_map_iff in Hi. destruct Hi as [j [<- Hj]].
    apply in_seq in Hj. lia.
Qed.

Lemma lossfun_outer_self_zero_rows (t w : list R) :
  StronglySorted Rlt t ->
  length t = S (length w) ->
  Forall (fun x => 0 <= x) w ->
  lossfun_outer t w t w = inr (zeros_like w).
Proof.
  intros Hs Hlen Hw.
  destruct w as [|w0 w'] eqn:Ew.
  { destruct t as [|a [|b t]]; try discriminate. reflexivity. }
  rewrite <- Ew in *.
  assert (Hne : w <> []) by (rewrite Ew; discriminate).
  unfold lossfun_outer. rewrite (outer_same_edges t w Hs Hlen Hne). cbn [bind].
  unfold ret, zeros_like. f_equal.
  rewrite (list_as_map_nth w) at 1 3.
  rewrite map2_map_same, !map_map, map2_map_same.
  rewrite (map_const_length 0 w (seq 0 (length w))) by (now rewrite length_seq).
  apply map_ext_in. intros i Hi. apply in_seq in Hi.
  assert (Hge : nth i w 0
                <= prefix_sum w (S (Nat.min (S i) (length w - 1))) - prefix_sum w i).
  { pose proof (prefix_sum_mono w (S i) (S (Nat.min (S i) (length w - 1))) Hw
                                ltac:(lia)) as Hm.
    unfold prefix_sum in *. rewrite (tsum_firstn_S w i) in Hm. lra. }
  rewrite Rmax_right by lra.
  unfold Rdiv. simpl. ring.
Qed.

(** X5.  A histogram is its own envelope: on one strictly increasing
    partition [t] and weights [w >= 0], [lossfun_outer(t, w, t, w)] is zero at
    every bin. *)
Theorem lossfun_outer_self_zero (t w : list R) :
  StronglySorted Rlt t ->
  length t = S (length w) ->
  Forall (fun x => 0 <= x) w ->
  lossfun_outer t w t w = inr (zeros_like w).
Proof. apply lossfun_outer_self_zero_rows. Qed.

Lemma lossfun_outer_self_zero_witness :
  lossfun_outer [0; 1; 3] [1 / 2; 1 / 4] [0; 1; 3] [1 / 2; 1 / 4]
  = inr (zeros_like [1 / 2; 1 / 4]).
Proof.
  apply lossfun_outer_self_zero;
    [sorted_reals | reflexivity | repeat (constructor; try lra)].
Defined.

Lemma last1_last {A : Type} (l : list A) (d : A) : l <> [] -> last1 l = [last l d].
Proof.
  unfold last1. induction l as [|a l IH]; [congruence|]. intros _.
  destruct l as [|b l]; [reflexivity|].
  replace (length (a :: b :: l) - 1)%nat with (S (length (b :: l) - 1))
    by (cbn [length]; lia).
  cbn [skipn]. rewrite IH by discriminate. reflexivity.
Qed.

Lemma edges_of_bins (t : list R) :
  (2 <= length t)%nat -> removelast t ++ last1 (tl t) = t.
Proof.
  intros H. destruct t as [|a [|b t]]; try (simpl in H; lia).
  cbn [tl]. rewrite (last1_last (b :: t) 0) by discriminate.
  symmetry. apply (app_removelast_last 0 (l := a :: b :: t)). discriminate.
Qed.

Lemma ray_samples_to_sdist_edges_rows (fr : Frustums) (T : list (list R)) :
  Forall (fun t => (2 <= length t)%nat) T ->
  ray_samples_to_sdist
    {| frustums := fr;
       spacing_starts := Some (map (@removelast R) T);
       spacing_ends := Some (map (@tl R) T) |}
  = inr T.
Proof.
  intros H. unfold ray_samples_to_sdist. cbn [spacing_starts spacing_ends].
  unfold ret. f_equal.
  induction H as [|t T Ht _ IH]; [reflexivity|].
  cbn [map map2]. rewrite IH, (edges_of_bins t Ht). reflexivity.
Qed.

(** X6.  [ray_samples_to_sdist] gives back the edges from which contiguous
    bins were cut: for rays of at least one sample, the starts [t[:-1]] and
    the ends [t[1:]] of every partition [t] yield [t] again. *)
Theorem ray_samples_to_sdist_of_edges (fr : Frustums) (T : list (list R)) :
  Forall (fun t => (2 <= length t)%nat) T ->
  ray_samples_to_sdist
    {| frustums := fr;
       spacing_starts := Some (map (@removelast R) T);
       spacing_ends := Some (map (@tl R) T) |}
  = inr T.
Proof. apply ray_samples_to_sdist_edges_rows. Qed.

Lemma ray_samples_to_sdist_of_edges_witness :
  ray_samples_to_sdist
    {| frustums := {| starts := []; ends := [] |};
       spacing_starts := Some (map (@removelast R) [[0; 1; 3]; [2; 5]]);
       spacing_ends := Some (map (@tl R) [[0; 1; 3]; [2; 5]]) |}
  = inr [[0; 1; 3]; [2; 5]].
Proof.
  apply ray_samples_to_sdist_of_edges. repeat constructor; simpl; lia.
Defined.

Lemma py_last_app {A : Type} (l : list A) (x : A) : py_last (l ++ [x]) = inr x.
Proof. unfold py_last. rewrite rev_app_distr. reflexivity. Qed.

(** X7.  [interlevel_loss] without any level raises [IndexError]; with one
    level of ray samples that carries its spacing, whatever the number of
    weight tensors, the loop body never runs and the loss is 0. *)
Theorem interlevel_loss_few_levels :
  interlevel_loss [] [] = inl (IndexError "list index out of range")
  /\ forall (weights_list : list (list (list R))) (weights : list (list R))
            (ray_samples : RaySamples) (s e : list (list R)),
      spacing_starts ray_samples = Some s ->
      spacing_ends ray_samples = Some e ->
      interlevel_loss (weights_list ++ [weights]) [ray_samples] = inr 0.
Proof.
  split; [reflexivity|].
  intros weights_list weights ray_samples s e Hs He.
  unfold interlevel_loss. cbn [py_last rev app bind ret].
  unfold ray_samples_to_sdist. rewrite Hs, He. cbn [bind ret].
  rewrite py_last_app. reflexivity.
Qed.

Lemma interlevel_loss_few_levels_witness :
  interlevel_loss [] [] = inl (IndexError "list index out of range")
  /\ interlevel_loss ([[[1]]] ++ [[[1; 1]]])
                     [ {| frustums := {| starts := []; ends := [] |};
                          spacing_starts := Some [[0; 1]];
                          spacing_ends := Some [[1; 2]] |} ]
     = inr 0.
Proof.
  destruct interlevel_loss_few_levels as [H0 H1].
  split; [exact H0|]. eapply H1; reflexivity.
Defined.

Lemma lossfun_outer_rays_self (T W : list (list R)) :
  Forall2 (fun t w => StronglySorted Rlt t /\ length t = S (length w)
                      /\ Forall (fun x => 0 <= x) w) T W ->
  lossfun_outer_rays T W T W = inr (map zeros_like W).
Proof.
  induction 1 as [|t w T W [Hs [Hl Hw]] _ IH]; [reflexivity|].
  cbn [lossfun_outer_rays map]. rewrite (lossfun_outer_self_zero_rows t w Hs Hl Hw).
  cbn [bind]. rewrite IH. reflexivity.
Qed.

Lemma tsum_concat_zeros (W : list (list R)) : tsum (concat (map zeros_like W)) = 0.
Proof.
  induction W as [|w W IH]; [reflexivity|].
  cbn [map concat]. rewrite tsum_app, IH.
  unfold zeros_like. induction w as [|x w IHw]; cbn [map tsum]; lra.
Qed.

Lemma interlevel_loop_same (T W : list (list R)) (rs : RaySamples) (k : nat) (acc : R) :
  ray_samples_to_sdist rs = inr T ->
  lossfun_outer_rays T W T W = inr (map zeros_like W) ->
  interlevel_loop T W (repeat (rs, W) k) acc = inr acc.
Proof.
  intros Hsd Hself. revert acc. induction k as [|k IH]; intros acc; [reflexivity|].
  cbn [repeat interlevel_loop]. rewrite Hsd. cbn [bind]. rewrite Hself. cbn [bind].
  unfold torch_mean. rewrite tsum_concat_zeros.
  replace (acc + 0 / INR (length (concat (map zeros_like W)))) with acc
    by (unfold Rdiv; ring).
  apply IH.
Qed.

Lemma combine_repeat {A B : Type} (a : A) (b : B) (k : nat) :
  combine (repeat a k) (repeat b k) = repeat (a, b) k.
Proof. induction k as [|k IH]; [reflexivity|]. cbn [repeat combine]. now rewrite IH. Qed.

Lemma removelast_repeat {A : Type} (a : A) (k : nat) :
  removelast (repeat a (S k)) = repeat a k.
Proof.
  induction k as [|k IH]; [reflexivity|].
  change (repeat a (S (S k))) with (a :: repeat a (S k)).
  change (removelast (a :: repeat a (S k)))
    with (match repeat a (S k) with [] => [] | _ :: _ => a :: removelast (repeat a (S k)) end).
  cbn [repeat]. cbn [repeat] in IH. rewrite IH. reflexivity.
Qed.

Lemma py_last_repeat {A : Type} (a : A) (k : nat) : py_last (repeat a (S k)) = inr a.
Proof.
  unfold py_last. rewrite rev_repeat. reflexivity.
Qed.

(** X8.  Proposal levels that equal the finest level cost nothing: when all
    [k + 1] levels carry the same contiguous, strictly increasing bins and
    the same weights [>= 0], of at least one ray and one sample per ray,
    [interlevel_loss] returns 0. *)
Theorem interlevel_loss_identical_levels
        (fr : Frustums) (T W : list (list R)) (k : nat) :
  W <> [] ->
  Forall (fun w => w <> []) W ->
  Forall2 (fun t w => StronglySorted Rlt t /\ length t = S (length w)
                      /\ Forall (fun x => 0 <= x) w) T W ->
  interlevel_loss
    (repeat W (S k))
    (repeat {| frustums := fr;
               spacing_starts := Some (map (@removelast R) T);
               spacing_ends := Some (map (@tl R) T) |} (S k))
  = inr 0.
Proof.
  intros _ Hne H.
  assert (Hsd : ray_samples_to_sdist
                  {| frustums := fr;
                     spacing_starts := Some (map (@removelast R) T);
                     spacing_ends := Some (map (@tl R) T) |} = inr T).
  { apply ray_samples_to_sdist_edges_rows.
    clear -Hne H. induction H as [|t w T W [_ [Hl _]] _ IH]; constructor.
    - inversion Hne as [|? ? Hw _]; subst. destruct w; [congruence|]. simpl in Hl. lia.
    - apply IH. inversion Hne; assumption. }
  unfold interlevel_loss.
  rewrite !py_last_repeat. cbn [bind]. rewrite Hsd. cbn [bind].
  rewrite !removelast_repeat, combine_repeat.
  apply interlevel_loop_same; [exact Hsd | apply lossfun_outer_rays_self; exact H].
Qed.

Lemma interlevel_loss_identical_levels_witness :
  interlevel_loss
    (repeat [[1 / 2; 1 / 4]] 2)
    (repeat {| frustums := {| starts := []; ends := [] |};
               spacing_starts := Some (map (@removelast R) [[0; 1; 3]]);
               spacing_ends := Some (map (@tl R) [[0; 1; 3]]) |} 2)
  = inr 0.
Proof.
  apply (interlevel_loss_identical_levels _ [[0; 1; 3]] [[1 / 2; 1 / 4]] 1).
  - discriminate.
  - repeat constructor; discriminate.
  - repeat constructor; try lra.
Defined.

(** ** Distortion *)



(** X10.  Once [densities] is a tensor, [nerfstudio_distortion_loss] never
    returns: with [weights] given the first assertion fails, and without them
    the weights computed from the densities make the second assertion fail. *)
Theorem nerfstudio_distortion_loss_densities_raise
        (get_weights : RaySamples -> list (list R) -> list (list R))
        (ray_samples : RaySamples) (densities : list (list R))
        (weights : option (list (list R))) :
  nerfstudio_distortion_loss get_weights ray_samples (Some densities) weights
  = inl (AssertionError "Cannot use both densities and weights").
Proof.
  unfold nerfstudio_distortion_loss. destruct weights; reflexivity.
Qed.

Lemma map3_length_same_shape (f : list R -> list R -> list R -> R)
      (w s e : list (list R)) :
  same_shape w s -> same_shape w e -> length (map3 f w s e) = length w.
Proof.
  unfold same_shape. intros Hs. revert e.
  induction Hs as [|a b w s _ _ IH]; intros e He; inversion He; subst;
    [reflexivity|].
  cbn [map3 length]. rewrite IH by assumption. reflexivity.
Qed.

(** X11.  With weights alone and ray samples that carry both spacing
    tensors, each of the shape of the weights, [nerfstudio_distortion_loss]
    returns one loss for each ray; when a spacing tensor is missing it raises
    the assertion on the spacing; with neither densities nor weights it
    raises. *)
Theorem nerfstudio_distortion_loss_spacing
        (get_weights : RaySamples -> list (list R) -> list (list R))
        (ray_samples : RaySamples) (weights : list (list R)) :
  (forall s e : list (list R),
      spacing_starts ray_samples = Some s ->
      spacing_ends ray_samples = Some e ->
      same_shape weights s ->
      same_shape weights e ->
      exists L,
        nerfstudio_distortion_loss get_weights ray_samples None (Some weights) = inr L
        /\ length L = length weights)
  /\ ((spacing_starts ray_samples = None \/ spacing_ends ray_samples = None) ->
      nerfstudio_distortion_loss get_weights ray_samples None (Some weights)
      = inl (AssertionError "Ray samples must have spacing starts and ends"))
  /\ exists e, nerfstudio_distortion_loss get_weights ray_samples None None = inl e.
Proof.
  unfold nerfstudio_distortion_loss. cbn [bind ret].
  split; [|split].
  - intros s e Hs He Hws Hwe. rewrite Hs, He.
    eexists. split; [reflexivity|].
    apply map3_length_same_shape; assumption.
  - destruct (spacing_starts ray_samples) as [s|], (spacing_ends ray_samples) as [e|];
      intros [H|H]; try discriminate H; reflexivity.
  - destruct (spacing_starts ray_samples) as [s|], (spacing_ends ray_samples) as [e|];
      eexists; reflexivity.
Qed.

Lemma nerfstudio_distortion_loss_spacing_witness :
  (exists L, nerfstudio_distortion_loss (fun _ d => d)
               {| frustums := {| starts := []; ends := [] |};
                  spacing_starts := Some [[0; 1]]; spacing_ends := Some [[1; 2]] |}
               None (Some [[1; 1]]) = inr L
             /\ length L = length [[1; 1]])
  /\ nerfstudio_distortion_loss (fun _ d => d)
       {| frustums := {| starts := []; ends := [] |};
          spacing_starts := Some [[0; 1]]; spacing_ends := None |}
       None (Some [[1; 1]])
     = inl (AssertionError "Ray samples must have spacing starts and ends").
Proof.
  split.
  - apply (proj1 (nerfstudio_distortion_loss_spacing (fun _ d => d) _ [[1; 1]])
                 [[0; 1]] [[1; 2]]);
      try reflexivity; repeat constructor.
  - apply (proj1 (proj2 (nerfstudio_distortion_loss_spacing (fun _ d => d) _ [[1; 1]]))).
    right. reflexivity.
Defined.

Lemma tsum_map2_Rmult_nonneg (a b : list R) :
  Forall (fun x => 0 <= x) a -> Forall (fun x => 0 <= x) b ->
  0 <= tsum (map2 Rmult a b).
Proof.
  intros Ha Hb. apply tsum_nonneg. apply Forall_map2. intros x y Hx Hy.
  rewrite Forall_forall in Ha, Hb. apply Rmult_le_pos; auto.
Qed.

Lemma bin_widths_nonneg (t : list R) :
  StronglySorted Rle t ->
  Forall (fun x => 0 <= x) (map2 Rminus (tl t) (removelast t)).
Proof.
  induction 1 as [|a t Ht IH Ha]; [constructor|].
  destruct t as [|b t]; [constructor|].
  change (removelast (a :: b :: t)) with (a :: removelast (b :: t)).
  cbn [tl map2]. constructor.
  - inversion Ha; subst. lra.
  - exact IH.
Qed.

(** X12.  On edges in nondecreasing order and weights [>= 0],
    [lossfun_distortion] is [>= 0]. *)
Theorem lossfun_distortion_nonneg (t w : list R) :
  StronglySorted Rle t ->
  Forall (fun x => 0 <= x) w ->
  0 <= lossfun_distortion t w.
Proof.
  intros Ht Hw. unfold lossfun_distortion.
  apply Rplus_le_le_0_compat.
  - apply tsum_map2_Rmult_nonneg; [exact Hw|].
    apply Forall_map_intro. intros row Hrow.
    apply tsum_map2_Rmult_nonneg; [exact Hw|].
    unfold pairwise in Hrow. apply in_map_iff in Hrow. destruct Hrow as [x [<- _]].
    apply Forall_map_intro. intros y _. apply Rabs_pos.
  - apply Rmult_le_pos; [|lra].
    apply tsum_map2_Rmult_nonneg; [|apply bin_widths_nonneg; exact Ht].
    apply Forall_map_intro. intros x _. apply pow2_ge_0.
Qed.

Lemma lossfun_distortion_nonneg_witness : 0 <= lossfun_distortion [0; 1; 1; 3] [1; 0; 2].
Proof.
  apply lossfun_distortion_nonneg; repeat (constructor; try lra).
Defined.

Lemma removelast_map {A B : Type} (f : A -> B) (l : list A) :
  removelast (map f l) = map f (removelast l).
Proof.
  induction l as [|a l IH]; [reflexivity|].
  destruct l as [|b l]; [reflexivity|].
  change (map f (a :: b :: l)) with (f a :: f b :: map f l).
  change (removelast (f a :: f b :: map f l))
    with (f a :: removelast (f b :: map f l)).
  change (removelast (a :: b :: l)) with (a :: removelast (b :: l)).
  cbn [map]. f_equal. exact IH.
Qed.

Lemma tl_map {A B : Type} (f : A -> B) (l : list A) : tl (map f l) = map f (tl l).
Proof. destruct l; reflexivity. Qed.

Lemma midpoints_shift (c : R) (a b : list R) :
  map (fun x => x / 2) (map2 (fun x y => x + c + (y + c)) a b)
  = map (fun u => u + c) (map (fun x => x / 2) (map2 Rplus a b)).
Proof.
  rewrite !map_map2. apply map2_ext. intros x y. lra.
Qed.

Lemma pairwise_shift (c : R) (u v : list R) :
  pairwise (fun a b => Rabs (a - b)) (map (fun x => x + c) u) (map (fun x => x + c) v)
  = pairwise (fun a b => Rabs (a - b)) u v.
Proof.
  unfold pairwise. rewrite map_map. apply map_ext. intros x.
  rewrite map_map. apply map_ext. intros y. f_equal. lra.
Qed.

(** X13.  [lossfun_distortion] depends on the edges through their
    differences only: shifting every edge by one constant leaves the loss
    unchanged. *)
Theorem lossfun_distortion_shift (t w : list R) (c : R) :
  lossfun_distortion (map (fun x => x + c) t) w = lossfun_distortion t w.
Proof.
  unfold lossfun_distortion.
  rewrite tl_map, removelast_map, !map2_map.
  assert (Hw : map2 (fun x y => x + c - (y + c)) (tl t) (removelast t)
               = map2 Rminus (tl t) (removelast t))
    by (apply map2_ext; intros x y; lra).
  rewrite Hw, midpoints_shift, pairwise_shift. reflexivity.
Qed.

Lemma tsum_scale_r (k : R) (a b : list R) :
  tsum (map2 Rmult a (map (fun y => k * y) b)) = k * tsum (map2 Rmult a b).
Proof.
  revert b. induction a as [|x a IH]; intros [|y b]; cbn [map map2 tsum]; try lra.
  rewrite IH. lra.
Qed.

(** X14.  [lossfun_distortion] is quadratic in the weights: scaling every
    weight by [k] scales the loss by [k^2]. *)
Theorem lossfun_distortion_scale_weights (t w : list R) (k : R) :
  lossfun_distortion t (map (fun x => k * x) w) = k ^ 2 * lossfun_distortion t w.
Proof.
  unfold lossfun_distortion.
  set (dut := pairwise _ _ _). set (widths := map2 Rminus _ _).
  rewrite tsum_scaled_row.
  rewrite (map_ext (fun row => tsum (map2 Rmult (map (fun x => k * x) w) row))
                   (fun row => k * tsum (map2 Rmult w row)))
    by (intros row; apply tsum_scaled_row).
  rewrite <- (map_map (fun row => tsum (map2 Rmult w row)) (fun y => k * y)).
  rewrite tsum_scale_r.
  rewrite map_map.
  rewrite (map_ext (fun x => (k * x) ^ 2) (fun x => k ^ 2 * x ^ 2))
    by (intros x; ring).
  rewrite <- (map_map (fun x => x ^ 2) (fun y => k ^ 2 * y)).
  rewrite tsum_scaled_row. field.
Qed.

(** ** Normals *)

Lemma dot_neg_r (n v : list R) : dot n (map (fun x => x * -1) v) = - dot n v.
Proof.
  unfold dot. revert v. induction n as [|a n IH]; intros [|b v];
    cbn [map map2 tsum]; try lra.
  rewrite IH. lra.
Qed.

(** X15.  With weights [>= 0] the orientation loss of every ray is [>= 0],
    and it is 0 on a ray all of whose normals face the camera
    ([n . viewdir <= 0]). *)
Theorem orientation_loss_sign (weights : list (list R)) (normals : list (list (list R)))
        (viewdirs : list (list R)) :
  nonneg weights ->
  Forall (fun l => 0 <= l) (orientation_loss weights normals viewdirs)
  /\ (Forall2 (fun n v => Forall (fun ni => dot ni v <= 0) n) normals viewdirs ->
      Forall (fun l => l = 0) (orientation_loss weights normals viewdirs)).
Proof.
  intros Hw. unfold orientation_loss. split.
  - revert normals viewdirs.
    induction Hw as [|w W Hw0 _ IH]; intros [|n N] [|v V]; try constructor.
    + apply tsum_map2_Rmult_nonneg; [exact Hw0|].
      apply Forall_map_intro. intros x _. apply pow2_ge_0.
    + apply IH.
  - intros Hface. revert weights Hw.
    induction Hface as [|n v N V Hn _ IH]; intros [|w W] Hw; try constructor.
    + clear -Hn. revert w.
      induction Hn as [|ni n Hni _ IHn]; intros [|w0 w]; try reflexivity.
      cbn [map map2 tsum]. rewrite IHn.
      rewrite dot_neg_r, Rmin_left by lra. simpl. ring.
    + apply IH. inversion Hw; assumption.
Qed.

Lemma orientation_loss_sign_witness :
  Forall (fun l => 0 <= l) (orientation_loss [[1; 2]] [[[0; 0; 1]; [0; 1; 0]]] [[0; 0; -1]])
  /\ Forall (fun l => l = 0)
            (orientation_loss [[1; 2]] [[[0; 0; 1]; [0; 1; 0]]] [[0; 0; -1]]).
Proof.
  destruct (orientation_loss_sign [[1; 2]] [[[0; 0; 1]; [0; 1; 0]]] [[0; 0; -1]])
    as [H1 H2].
  - repeat (constructor; try lra).
  - split; [exact H1|]. apply H2.
    repeat (constructor; try (unfold dot; cbn [map2 tsum]; lra)).
Defined.

Lemma dot_self_nonneg (u : list R) : 0 <= dot u u.
Proof.
  unfold dot. induction u as [|x u IH]; cbn [map2 tsum]; [lra|]. nra.
Qed.

Lemma dot_le_half (u v : list R) : dot u v <= (dot u u + dot v v) / 2.
Proof.
  revert v. induction u as [|x u IH]; intros [|y v].
  - unfold dot. cbn. lra.
  - pose proof (dot_self_nonneg (y :: v)). unfold dot in *. cbn [map2 tsum] in *. lra.
  - pose proof (dot_self_nonneg (x :: u)). unfold dot in *. cbn [map2 tsum] in *. lra.
  - specialize (IH v). unfold dot in *. cbn [map2 tsum].
    pose proof (Rle_0_sqr (x - y)) as Hsq. unfold Rsqr in Hsq. lra.
Qed.

(** X16.  For unit normals and weights [>= 0], [pred_normal_loss] is [>= 0]
    on every ray; it is 0 on every ray when the predicted normals are the
    density normals. *)
Theorem pred_normal_loss_unit (weights : list (list R))
        (normals pred_normals : list (list (list R))) :
  nonneg weights ->
  Forall (Forall (fun n => dot n n = 1)) normals ->
  Forall (Forall (fun p => dot p p = 1)) pred_normals ->
  Forall (fun l => 0 <= l) (pred_normal_loss weights normals pred_normals)
  /\ Forall (fun l => l = 0) (pred_normal_loss weights normals normals).
Proof.
  intros Hw Hn Hp. unfold pred_normal_loss. split.
  - revert normals pred_normals Hn Hp.
    induction Hw as [|w W Hw0 _ IH]; intros [|n N] [|p P] Hn Hp; try constructor.
    + inversion Hn as [|? ? Hn0 _]; inversion Hp as [|? ? Hp0 _]; subst.
      apply tsum_map2_Rmult_nonneg; [exact Hw0|].
      apply Forall_map_intro. intros d Hd.
      clear -Hn0 Hp0 Hd. revert p Hp0 Hd.
      induction Hn0 as [|ni n Hni _ IHn]; intros [|pi p] Hp0 Hd; try contradiction.
      inversion Hp0 as [|? ? Hpi Hp']; subst.
      destruct Hd as [<-|Hd].
      * pose proof (dot_le_half ni pi). lra.
      * apply (IHn p Hp' Hd).
    + inversion Hn; inversion Hp; subst. apply IH; assumption.
  - clear Hp. revert normals Hn.
    induction Hw as [|w W Hw0 _ IH]; intros [|n N] Hn; try constructor.
    + inversion Hn as [|? ? Hn0 _]; subst.
      clear -Hn0. revert w.
      induction Hn0 as [|ni n Hni _ IHn]; intros [|w0 w]; try reflexivity.
      cbn [map map2 tsum]. rewrite IHn, Hni. ring.
    + inversion Hn; subst. apply IH; assumption.
Qed.

Lemma pred_normal_loss_unit_witness :
  Forall (fun l => 0 <= l)
         (pred_normal_loss [[1; 2]] [[[0; 0; 1]; [0; 1; 0]]] [[[1; 0; 0]; [0; 1; 0]]])
  /\ Forall (fun l => l = 0)
            (pred_normal_loss [[1; 2]] [[[0; 0; 1]; [0; 1; 0]]] [[[0; 0; 1]; [0; 1; 0]]]).
Proof.
  apply pred_normal_loss_unit;
    repeat (constructor; try lra; try (unfold dot; cbn [map2 tsum]; lra)).
Defined.

Lemma tsum_squares_dot (v : list R) : tsum (map (fun x => x ^ 2) v) = dot v v.
Proof.
  unfold dot. induction v as [|x v IH]; cbn [map map2 tsum]; [reflexivity|].
  rewrite IH. ring.
Qed.

Lemma dot_scaled (c : R) (u v : list R) :
  dot (map (fun x => x / c) u) (map (fun x => x / c) v) = dot u v * (/ c * / c).
Proof.
  unfold dot. revert v. induction u as [|x u IH]; intros [|y v];
    cbn [map map2 tsum]; try lra.
  rewrite IH. unfold Rdiv. ring.
Qed.


Lemma normalize_unit (v : list R) :
  1 / 1000000000000 <= sqrt (tsum (map (fun x => x ^ 2) v)) ->
  dot (normalize v) (normalize v) = 1.
Proof.
  intros Hn. unfold normalize. rewrite dot_scaled.
  rewrite Rmax_left by exact Hn.
  rewrite tsum_squares_dot in *.
  pose proof (dot_self_nonneg v) as HS.
  set (S := dot v v) in *.
  assert (Hpos : 0 < sqrt S) by lra.
  rewrite <- (sqrt_sqrt S HS) at 1. field. lra.
Qed.

Lemma torch_mean_nonneg (l : list R) : Forall (fun x => 0 <= x) l -> 0 <= torch_mean l.
Proof.
  intros H. unfold torch_mean. destruct l as [|x l].
  - cbn [tsum]. unfold Rdiv. lra.
  - apply Rmult_le_pos; [apply tsum_nonneg; exact H|].
    left. apply Rinv_0_lt_compat. apply lt_0_INR. simpl. lia.
Qed.

Lemma In_map2 {A B C : Type} (f : A -> B -> C) (a : list A) (b : list B) (c : C) :
  In c (map2 f a b) -> exists x y, In x a /\ In y b /\ c = f x y.
Proof.
  revert b. induction a as [|x a IH]; intros [|y b] H; try contradiction.
  cbn [map2] in H. destruct H as [<-|H].
  - exists x, y. repeat split; left; reflexivity.
  - destruct (IH b H) as [x' [y' [Hx [Hy Hc]]]].
    exists x', y'. repeat split; try (right; assumption). exact Hc.
Qed.



Lemma l1_of_equal (X : list (list R)) :
  tsum (map tsum (tmap Rabs (tmap2 Rminus X X))) = 0.
Proof.
  unfold tmap, tmap2. induction X as [|x X IH]; [reflexivity|].
  cbn [map map2 tsum]. rewrite IH.
  assert (Hx : tsum (map Rabs (map2 Rminus x x)) = 0).
  { clear. induction x as [|a x IHx]; [reflexivity|].
    cbn [map map2 tsum]. rewrite IHx.
    replace (a - a) with 0 by lra. rewrite Rabs_R0. lra. }
  lra.
Qed.

Lemma mean_of_constant (c : R) (l : list (list R)) (f : list R -> R) :
  l <> [] -> (forall v, In v l -> f v = c) -> torch_mean (map f l) = c.
Proof.
  intros Hne Hf. unfold torch_mean. rewrite length_map.
  assert (Hs : tsum (map f l) = INR (length l) * c).
  { clear Hne. induction l as [|v l IH]; [cbn; lra|].
    change (length (v :: l)) with (S (length l)). rewrite S_INR.
    cbn [map tsum]. rewrite IH by (intros u Hu; apply Hf; right; exact Hu).
    rewrite (Hf v (or_introl eq_refl)). ring. }
  rewrite Hs. field. apply not_0_INR. destruct l; [congruence | discriminate].
Qed.

Lemma map2_diag {A B : Type} (f : A -> A -> B) (l : list A) :
  map2 f l l = map (fun x => f x x) l.
Proof. induction l as [|a l IH]; [reflexivity|]. cbn [map map2]. now rewrite IH. Qed.

(** X18.  When the prediction equals the ground truth, [monosdf_normal_loss]
    is 0 if every normal is at least [eps = 1e-12] long, and 1 if every
    normal is the zero vector, which [normalize] leaves at zero. *)
Theorem monosdf_normal_loss_equal_inputs (normals : list (list R)) :
  normals <> [] ->
  (Forall (fun v => 1 / 1000000000000 <= sqrt (tsum (map (fun x => x ^ 2) v))) normals ->
   monosdf_normal_loss normals normals = 0)
  /\ (Forall (Forall (fun x => x = 0)) normals ->
      monosdf_normal_loss normals normals = 1).
Proof.
  intros Hne. unfold monosdf_normal_loss.
  assert (Hl1 : torch_mean
                  (map tsum (tmap Rabs (tmap2 Rminus (map normalize normals)
                                              (map normalize normals)))) = 0).
  { unfold torch_mean. rewrite l1_of_equal. unfold Rdiv. ring. }
  rewrite Hl1, map2_diag, !map_map.
  split; intros H; rewrite Forall_forall in H.
  - rewrite (mean_of_constant 0); [lra | exact Hne |].
    intros v Hv. rewrite (normalize_unit v (H v Hv)). lra.
  - rewrite (mean_of_constant 1); [lra | exact Hne |].
    intros v Hv. specialize (H v Hv).
    assert (Hz : dot (normalize v) (normalize v) = 0); [|lra].
    unfold normalize. rewrite dot_scaled.
    assert (Hd : dot v v = 0).
    { clear -H. unfold dot. induction H as [|x v Hx _ IH]; [reflexivity|].
      cbn [map2 tsum]. rewrite IH, Hx. ring. }
    rewrite Hd. ring.
Qed.

Lemma monosdf_normal_loss_equal_inputs_witness :
  monosdf_normal_loss [[0; 0; 1]; [0; 1; 0]] [[0; 0; 1]; [0; 1; 0]] = 0
  /\ monosdf_normal_loss [[0; 0; 0]] [[0; 0; 0]] = 1.
Proof.
  split.
  - apply (proj1 (monosdf_normal_loss_equal_inputs [[0; 0; 1]; [0; 1; 0]]
                    ltac:(discriminate))).
    apply Forall_cons; [|apply Forall_cons; [|apply Forall_nil]]; cbn [map tsum].
    + replace (0 ^ 2 + (0 ^ 2 + (1 ^ 2 + 0))) with 1 by ring. rewrite sqrt_1. lra.
    + replace (0 ^ 2 + (1 ^ 2 + (0 ^ 2 + 0))) with 1 by ring. rewrite sqrt_1. lra.
  - apply (proj2 (monosdf_normal_loss_equal_inputs [[0; 0; 0]] ltac:(discriminate))).
    repeat constructor.
Defined.

(** ** Signs of the depth losses *)

Lemma b2R_nonneg (b : bool) : 0 <= b2R b.
Proof. destruct b; cbn; lra. Qed.

(** X19.  [urban_radiance_field_depth_loss] is [>= 0] on every batch of at
    least one ray: each ray adds a squared depth error and sums of masked
    squares. *)
Theorem urban_radiance_field_depth_loss_nonneg
        (weights : list (list R)) (termination_depth predicted_depth : list R)
        (steps : list (list R)) (sigma : R) :
  (0 < length termination_depth)%nat ->
  0 < sigma ->
  0 <= urban_radiance_field_depth_loss weights termination_depth predicted_depth
                                       steps sigma.
Proof.
  intros _ _. unfold urban_radiance_field_depth_loss.
  apply torch_mean_nonneg. apply Forall_map2. intros x m Hx Hm.
  apply in_map_iff in Hm. destruct Hm as [b [<- _]].
  apply Rmult_le_pos; [|apply b2R_nonneg].
  apply In_map2 in Hx. destruct Hx as [e [l [He [Hl ->]]]].
  apply in_map_iff in He. destruct He as [d [<- _]].
  apply In_map2 in Hl. destruct Hl as [n [em [Hn [Hem ->]]]].
  pose proof (pow2_ge_0 d).
  assert (0 <= n).
  { unfold line_of_sight_loss_near in Hn.
    unfold sum_samples, tmap2, tmap in *.
    apply in_map_iff in Hn. destruct Hn as [row [<- Hrow]].
    apply tsum_nonneg.
    apply In_map2 in Hrow. destruct Hrow as [mr [vr [_ [Hvr ->]]]].
    apply in_map_iff in Hvr. destruct Hvr as [r0 [<- _]].
    apply Forall_map2. intros a0 b1 _ Hb.
    apply in_map_iff in Hb. destruct Hb as [b0 [<- _]].
    apply Rmult_le_pos; [apply b2R_nonneg | apply pow2_ge_0]. }
  assert (0 <= em).
  { unfold line_of_sight_loss_empty, sum_samples, tmap2, tmap in Hem.
    apply in_map_iff in Hem. destruct Hem as [row [<- Hrow]].
    apply tsum_nonneg.
    apply In_map2 in Hrow. destruct Hrow as [mr [vr [_ [Hvr ->]]]].
    apply in_map_iff in Hvr. destruct Hvr as [r0 [<- _]].
    apply Forall_map2. intros a0 b1 _ Hb.
    apply in_map_iff in Hb. destruct Hb as [b0 [<- _]].
    apply Rmult_le_pos; [apply b2R_nonneg | apply pow2_ge_0]. }
  lra.
Qed.

Lemma urban_radiance_field_depth_loss_nonneg_witness :
  0 <= urban_radiance_field_depth_loss [[0; 1; 0]] [5] [4] [[1; 5; 7]] 1.
Proof.
  apply urban_radiance_field_depth_loss_nonneg; [simpl; lia | lra].
Defined.

(** X20.  [ds_nerf_depth_loss] is [>= 0] when every weight lies in
    [0, 1 - eps] and every bin width is [>= 0]: then no logarithm is
    positive. *)
Theorem ds_nerf_depth_loss_nonneg
        (weights : list (list R)) (termination_depth : list R)
        (steps lengths : list (list R)) (sigma : R) :
  (0 < length termination_depth)%nat ->
  0 < sigma ->
  Forall (Forall (fun w => 0 <= w <= 1 - EPS)) weights ->
  nonneg lengths ->
  0 <= ds_nerf_depth_loss weights termination_depth steps lengths sigma.
Proof.
  intros _ _ Hw Hl. unfold ds_nerf_depth_loss.
  apply torch_mean_nonneg. apply Forall_map2. intros x m Hx Hm.
  apply in_map_iff in Hm. destruct Hm as [b [<- _]].
  apply Rmult_le_pos; [|apply b2R_nonneg].
  unfold sum_samples, tmap2, tmap in Hx.
  apply in_map_iff in Hx. destruct Hx as [row [<- Hrow]].
  apply tsum_nonneg.
  apply In_map2 in Hrow. destruct Hrow as [we [l [Hwe [Hlrow ->]]]].
  apply In_map2 in Hwe. destruct Hwe as [lw [ew [Hlw [Hew ->]]]].
  apply in_map_iff in Hlw. destruct Hlw as [w [<- Hwin]].
  apply in_map_iff in Hew. destruct Hew as [s [<- _]].
  rewrite Forall_forall in Hw. specialize (Hw w Hwin).
  unfold nonneg in Hl. rewrite Forall_forall in Hl. specialize (Hl l Hlrow).
  apply Forall_map2. intros p li Hp Hli.
  rewrite Forall_forall in Hl. specialize (Hl li Hli).
  apply Rmult_le_pos; [|exact Hl].
  apply In_map2 in Hp. destruct Hp as [a [e [Ha [He ->]]]].
  apply in_map_iff in Ha. destruct Ha as [wi [<- Hwi]].
  apply in_map_iff in He. destruct He as [si [<- _]].
  rewrite Forall_forall in Hw. specialize (Hw wi Hwi).
  apply Rmult_le_pos; [|left; apply exp_pos].
  assert (Hx : 0 < wi + EPS <= 1) by (unfold EPS in *; lra).
  destruct (Req_dec (wi + EPS) 1) as [H1|H1].
  - rewrite H1, ln_1. lra.
  - pose proof (ln_increasing (wi + EPS) 1 ltac:(lra) ltac:(lra)) as Hln.
    rewrite ln_1 in Hln. lra.
Qed.

Lemma ds_nerf_depth_loss_nonneg_witness :
  0 <= ds_nerf_depth_loss [[3 / 10; 3 / 10]] [3 / 2] [[1 / 2; 3 / 2]] [[1; 1]] (1 / 10).
Proof.
  apply ds_nerf_depth_loss_nonneg;
    [simpl; lia | lra | | ]; repeat (constructor; try (unfold EPS; lra)).
Defined.

(** ** The adversarial loss outside of the discriminator branch *)

Lemma softplus_pos (x : R) : 0 < softplus x.
Proof.
  unfold softplus. destruct (Rlt_dec 20 x); [lra|].
  pose proof (exp_pos x) as He.
  pose proof (ln_increasing 1 (1 + exp x) ltac:(lra) ltac:(lra)) as Hln.
  rewrite ln_1 in Hln. exact Hln.
Qed.

Lemma tsum_pos (l : list R) : l <> [] -> Forall (fun x => 0 < x) l -> 0 < tsum l.
Proof.
  intros Hne Hall. destruct Hall as [|x l Hx Hl]; [congruence|].
  cbn [tsum].
  assert (Hrest : 0 <= tsum l).
  { apply tsum_nonneg. eapply Forall_impl; [|exact Hl].
    intros a Ha. cbn beta in Ha. lra. }
  lra.
Qed.

(** X21.  In generator mode [GANLoss.forward] reads the first prediction
    only and returns [mean(softplus(-fake_pred))], which is [>= 0] for every
    batch of at least one entry. *)
Theorem GANLoss_forward_generator
        (autograd_grad : R -> py_value -> result (list (list (list R))))
        (self : GANLoss) (fake_pred : list R) (others : list (list R)) :
  m_type self = "G"%string ->
  fake_pred <> [] ->
  exists loss,
    GANLoss_forward autograd_grad self (fake_pred :: others) = inr loss
    /\ loss = torch_mean (map softplus (map Ropp fake_pred))
    /\ 0 <= loss.
Proof.
  intros Hm Hne. unfold GANLoss_forward. rewrite Hm. cbn [String.eqb].
  eexists. split; [reflexivity|]. split; [reflexivity|].
  unfold torch_mean. left. apply Rmult_lt_0_compat.
  - apply tsum_pos.
    + destruct fake_pred; [congruence | discriminate].
    + apply Forall_map_intro. intros x _. apply softplus_pos.
  - apply Rinv_0_lt_compat. apply lt_0_INR. rewrite !length_map.
    destruct fake_pred; [congruence | simpl; lia].
Qed.

Lemma GANLoss_forward_generator_witness :
  exists loss,
    GANLoss_forward (fun _ _ => inr [])
                    {| m_type := "G"; r1_gamma := 2 / 10; reg_step := 16 |}
                    ([0; 25] :: [[1]]) = inr loss
    /\ loss = torch_mean (map softplus (map Ropp [0; 25]))
    /\ 0 <= loss.
Proof.
  apply GANLoss_forward_generator; [reflexivity | discriminate].
Defined.

(** X22.  The failures of [GANLoss.forward] before any loss is formed: no
    prediction in generator mode raises [IndexError], a number of
    predictions other than two in discriminator mode raises [ValueError],
    and any other [m_type] reaches [return loss] with [loss] unbound. *)
Theorem GANLoss_forward_failures
        (autograd_grad : R -> py_value -> result (list (list (list R))))
        (self : GANLoss) (preds : list (list R)) :
  (m_type self = "G"%string -> preds = [] ->
   GANLoss_forward autograd_grad self preds = inl (IndexError "list index out of range"))
  /\ (m_type self = "D"%string -> length preds <> 2%nat ->
      GANLoss_forward autograd_grad self preds
      = inl (ValueError "not enough or too many values to unpack (expected 2)"))
  /\ (m_type self <> "G"%string -> m_type self <> "D"%string ->
      GANLoss_forward autograd_grad self preds = inl (UnboundLocalError "loss")).
Proof.
  unfold GANLoss_forward. repeat split.
  - intros Hm ->. rewrite Hm. reflexivity.
  - intros Hm Hlen. rewrite Hm. cbn [String.eqb Ascii.eqb Bool.eqb].
    destruct preds as [|a [|b [|c preds]]]; try reflexivity.
    simpl in Hlen. congruence.
  - intros HG HD.
    apply String.eqb_neq in HG. apply String.eqb_neq in HD.
    rewrite HG, HD. reflexivity.
Qed.

Lemma GANLoss_forward_failures_witness :
  GANLoss_forward (fun _ _ => inr [])
                  {| m_type := "G"; r1_gamma := 2 / 10; reg_step := 16 |} []
  = inl (IndexError "list index out of range")
  /\ GANLoss_forward (fun _ _ => inr [])
                     {| m_type := "D"; r1_gamma := 2 / 10; reg_step := 16 |} [[0]]
     = inl (ValueError "not enough or too many values to unpack (expected 2)")
  /\ GANLoss_forward (fun _ _ => inr [])
                     {| m_type := "d"; r1_gamma := 2 / 10; reg_step := 16 |} [[0]; [0]]
     = inl (UnboundLocalError "loss").
Proof.
  split; [|split].
  - apply (proj1 (GANLoss_forward_failures (fun _ _ => inr []) _ [])); reflexivity.
  - apply (proj1 (proj2 (GANLoss_forward_failures (fun _ _ => inr []) _ [[0]])));
      [reflexivity | discriminate].
  - apply (proj2 (proj2 (GANLoss_forward_failures (fun _ _ => inr []) _ [[0]; [0]])));
      discriminate.
Defined.

(** X23.  [r1_regularization] never returns a penalty: either the gradient
    engine raises, or [.pow] is looked up on the tuple it returned. *)
Theorem r1_regularization_never_returns
        (autograd_grad : R -> py_value -> result (list (list (list R))))
        (real_pred : list R) (real_img : py_value) :
  exists e, r1_regularization autograd_grad real_pred real_img = inl e.
Proof.
  unfold r1_regularization.
  destruct (autograd_grad (tsum real_pred) real_img) as [e|g]; eexists; reflexivity.
Qed.

(** ** The backward rule of the truncated exponential *)

Lemma clamp_inside (v : R) : -15 <= v <= 15 -> clamp v (-15) 15 = v.
Proof.
  intros H. unfold clamp, Rmin, Rmax.
  destruct (Rle_dec v (-15)); destruct (Rle_dec _ 15); lra.
Qed.

Lemma clamp_bounds (v : R) : -15 <= clamp v (-15) 15 <= 15.
Proof.
  unfold clamp, Rmin, Rmax.
  destruct (Rle_dec v (-15)); destruct (Rle_dec _ 15); lra.
Qed.

(** X24.  The backward rule of [trunc_exp] is the true derivative rule,
    [g] times the forward value, wherever the saved input lies in
    [-15, 15]; and for every input each gradient entry is bounded by
    [|g| * exp(15)]. *)
Theorem TruncExp_backward_rule (ctx : Ctx) (x g : list R) :
  (Forall (fun v => -15 <= v <= 15) x ->
   TruncExp_backward (fst (TruncExp_forward ctx x)) g
   = map2 Rmult g (snd (TruncExp_forward ctx x)))
  /\ Forall (fun bg : R * R => Rabs (fst bg) <= Rabs (snd bg) * exp 15)
            (combine (TruncExp_backward (fst (TruncExp_forward ctx x)) g) g).
Proof.
  unfold TruncExp_backward, TruncExp_forward, save_for_backward.
  cbn [fst snd saved_tensors nth]. split.
  - intros Hx. f_equal. apply map_ext_in. intros v Hv.
    rewrite Forall_forall in Hx. rewrite (clamp_inside v (Hx v Hv)). reflexivity.
  - revert x. induction g as [|g0 g IH]; intros [|x0 x]; try constructor.
    + cbn [fst snd]. rewrite Rabs_mult.
      apply Rmult_le_compat_l; [apply Rabs_pos|].
      rewrite Rabs_right by (left; apply exp_pos).
      destruct (clamp_bounds x0) as [_ [Hlt|Heq]].
      * left. apply exp_increasing. exact Hlt.
      * rewrite Heq. lra.
    + apply IH.
Qed.

Lemma TruncExp_backward_rule_witness :
  TruncExp_backward (fst (TruncExp_forward {| saved_tensors := [] |} [1; -3])) [2; 5]
  = map2 Rmult [2; 5] (snd (TruncExp_forward {| saved_tensors := [] |} [1; -3])).
Proof.
  apply (proj1 (TruncExp_backward_rule {| saved_tensors := [] |} [1; -3] [2; 5])).
  repeat (constructor; try lra).
Defined.

(** ** The depth-map losses and the mask *)

Lemma residual_row_masked (m a b y : list R) :
  Forall3 (fun m a b => m = 0 \/ a = b) m a b ->
  map2 Rmult m (map2 Rminus a y) = map2 Rmult m (map2 Rminus b y)
  /\ map2 Rmult (map2 (fun p t => (p - t) ^ 2) a y) m
     = map2 Rmult (map2 (fun p t => (p - t) ^ 2) b y) m.
Proof.
  intros H. revert y.
  induction H as [|m0 a0 b0 m a b H0 _ IH]; intros [|y0 y]; try (split; reflexivity).
  destruct (IH y) as [IH1 IH2]. cbn [map2]. rewrite IH1, IH2.
  destruct H0 as [->| ->]; split; f_equal; ring.
Qed.

Lemma residual_image_masked (m a b y : list (list R)) :
  Forall3 (Forall3 (fun m a b => m = 0 \/ a = b)) m a b ->
  map2 (map2 Rmult) m (map2 (map2 Rminus) a y)
  = map2 (map2 Rmult) m (map2 (map2 Rminus) b y)
  /\ map2 (map2 Rmult) (map2 (map2 (fun p t => (p - t) ^ 2)) a y) m
     = map2 (map2 Rmult) (map2 (map2 (fun p t => (p - t) ^ 2)) b y) m.
Proof.
  intros H. revert y.
  induction H as [|m0 a0 b0 m a b H0 _ IH]; intros [|y0 y]; try (split; reflexivity).
  destruct (IH y) as [IH1 IH2]. destruct (residual_row_masked m0 a0 b0 y0 H0) as [R1 R2].
  cbn [map2]. rewrite IH1, IH2, R1, R2. split; reflexivity.
Qed.

Lemma residual_batch_masked (m a b y : list (list (list R))) :
  agree_where_masked m a b ->
  t3map2 Rmult m (t3map2 Rminus a y) = t3map2 Rmult m (t3map2 Rminus b y)
  /\ t3map2 Rmult (t3map2 (fun p t => (p - t) ^ 2) a y) m
     = t3map2 Rmult (t3map2 (fun p t => (p - t) ^ 2) b y) m.
Proof.
  unfold agree_where_masked, t3map2. intros H. revert y.
  induction H as [|m0 a0 b0 m a b H0 _ IH]; intros [|y0 y]; try (split; reflexivity).
  destruct (IH y) as [IH1 IH2]. destruct (residual_image_masked m0 a0 b0 y0 H0) as [R1 R2].
  cbn [map2]. rewrite IH1, IH2, R1, R2. split; reflexivity.
Qed.

(** X25.  Neither [MiDaSMSELoss.forward] nor [GradientLoss.forward] reads the
    prediction at a pixel whose mask is 0: two predictions that agree
    wherever the mask is nonzero give the same two losses. *)
Theorem depth_map_losses_read_masked_pixels_only
        (masked_reduction : list R -> list R -> string -> R)
        (mse : MiDaSMSELoss) (grad : GradientLoss)
        (prediction prediction' target mask : list (list (list R))) :
  agree_where_masked mask prediction prediction' ->
  MiDaSMSELoss_forward masked_reduction mse prediction target mask
  = MiDaSMSELoss_forward masked_reduction mse prediction' target mask
  /\ GradientLoss_forward masked_reduction grad prediction target mask
     = GradientLoss_forward masked_reduction grad prediction' target mask.
Proof.
  intros H. destruct (residual_batch_masked mask prediction prediction' target H)
    as [Hres Hsq].
  split.
  - unfold MiDaSMSELoss_forward. rewrite Hsq. reflexivity.
  - apply GradientLoss_forward_residual. exact Hres.
Qed.

Lemma depth_map_losses_read_masked_pixels_only_witness :
  MiDaSMSELoss_forward (fun l _ _ => tsum l) {| mse_reduction_type := "batch" |}
                       [[[1; 2]; [3; 4]]] [[[0; 0]; [0; 0]]] [[[1; 0]; [1; 1]]]
  = MiDaSMSELoss_forward (fun l _ _ => tsum l) {| mse_reduction_type := "batch" |}
                         [[[1; 9]; [3; 4]]] [[[0; 0]; [0; 0]]] [[[1; 0]; [1; 1]]]
  /\ GradientLoss_forward (fun l _ _ => tsum l)
                          {| reduction_type := "batch"; scales := 2 |}
                          [[[1; 2]; [3; 4]]] [[[0; 0]; [0; 0]]] [[[1; 0]; [1; 1]]]
     = GradientLoss_forward (fun l _ _ => tsum l)
                            {| reduction_type := "batch"; scales := 2 |}
                            [[[1; 9]; [3; 4]]] [[[0; 0]; [0; 0]]] [[[1; 0]; [1; 1]]].
Proof.
  apply depth_map_losses_read_masked_pixels_only.
  repeat (constructor; try (left; reflexivity); try (right; reflexivity)).
Defined.

(** X26.  With [scales <= 0] the loop of [GradientLoss.forward] has no
    iteration and the loss is 0; then, and also with [alpha <= 0],
    [ScaleAndShiftInvariantLoss.forward] returns the data term of the
    aligned prediction alone. *)
Theorem regularization_switched_off
        (masked_reduction : list R -> list R -> string -> R)
        (normalized_depth_scale_and_shift :
           list (list (list R)) -> list (list (list R)) -> list (list (list R))
           -> list R * list R)
        (self : ScaleAndShiftInvariantLoss)
        (prediction target mask : list (list (list R))) :
  ((scales (regularization_loss self) <= 0)%Z ->
   GradientLoss_forward masked_reduction (regularization_loss self)
                        prediction target mask = 0)
  /\ ((scales (regularization_loss self) <= 0)%Z \/ alpha self <= 0 ->
      snd (ScaleAndShiftInvariantLoss_forward
             masked_reduction normalized_depth_scale_and_shift self
             prediction target mask)
      = MiDaSMSELoss_forward masked_reduction (data_loss self)
          (map3 (fun s t img => map (map (fun p => s * p + t)) img)
                (fst (normalized_depth_scale_and_shift prediction target mask))
                (snd (normalized_depth_scale_and_shift prediction target mask))
                prediction)
          target mask).
Proof.
  assert (Hzero : forall p, (scales (regularization_loss self) <= 0)%Z ->
                            GradientLoss_forward masked_reduction (regularization_loss self)
                                                 p target mask = 0).
  { intros p Hs. unfold GradientLoss_forward.
    replace (Z.to_nat (scales (regularization_loss self))) with 0%nat by lia.
    reflexivity. }
  split; [apply Hzero|].
  intros H. unfold ScaleAndShiftInvariantLoss_forward.
  destruct (normalized_depth_scale_and_shift prediction target mask) as [ss ts].
  cbn [fst snd data_loss regularization_loss alpha].
  destruct (Rlt_dec 0 (alpha self)) as [Ha|Ha]; [|reflexivity].
  destruct H as [Hs|Hal]; [|lra].
  rewrite (Hzero _ Hs). ring.
Qed.

Lemma regularization_switched_off_witness :
  GradientLoss_forward (fun l _ _ => tsum l)
                       {| reduction_type := "batch"; scales := 0 |}
                       [[[0; 1]]] [[[1; 3]]] [[[1; 1]]] = 0.
Proof.
  apply (proj1 (regularization_switched_off
                  (fun l _ _ => tsum l) two_point_alignment
                  {| data_loss := {| mse_reduction_type := "batch" |};
                     regularization_loss := {| reduction_type := "batch"; scales := 0 |};
                     alpha := 1 / 2; prediction_ssi := None |}
                  [[[0; 1]]] [[[1; 3]]] [[[1; 1]]])).
  cbn. lia.
Defined.

Lemma map2_flip {A B C : Type} (f : A -> B -> C) (a : list A) (b : list B) :
  map2 f a b = map2 (fun y x => f x y) b a.
Proof.
  revert b. induction a as [|x a IH]; intros [|y b]; try reflexivity.
  cbn [map2]. now rewrite IH.
Qed.

Lemma t3map2_flip {A B C : Type} (f : A -> B -> C)
      (x : list (list (list A))) (y : list (list (list B))) :
  t3map2 f x y = t3map2 (fun b a => f a b) y x.
Proof.
  unfold t3map2. rewrite map2_flip. apply map2_ext. intros i j.
  rewrite map2_flip. apply map2_ext. intros r s. apply map2_flip.
Qed.

Lemma t3map_t3map2 {A B C D : Type} (g : C -> D) (f : A -> B -> C)
      (x : list (list (list A))) (y : list (list (list B))) :
  t3map g (t3map2 f x y) = t3map2 (fun a b => g (f a b)) x y.
Proof.
  unfold t3map, t3map2. rewrite map_map2. apply map2_ext. intros i j.
  rewrite map_map2. apply map2_ext. intros r s. apply map_map2.
Qed.

Lemma t3map_t3map {A B C : Type} (g : B -> C) (f : A -> B) (x : list (list (list A))) :
  t3map g (t3map f x) = t3map (fun a => g (f a)) x.
Proof.
  unfold t3map. rewrite map_map. apply map_ext. intros i.
  rewrite map_map. apply map_ext. intros r. apply map_map.
Qed.

Lemma t3map_ext {A B : Type} (f g : A -> B) (x : list (list (list A))) :
  (forall a, f a = g a) -> t3map f x = t3map g x.
Proof.
  intros H. unfold t3map. apply map_ext. intros i. apply map_ext. intros r.
  apply map_ext. exact H.
Qed.

Lemma slices_t3map {A B : Type} (f : A -> B) (x : list (list (list A))) :
  cols_from_1 (t3map f x) = t3map f (cols_from_1 x)
  /\ cols_to_last (t3map f x) = t3map f (cols_to_last x)
  /\ rows_from_1 (t3map f x) = t3map f (rows_from_1 x)
  /\ rows_to_last (t3map f x) = t3map f (rows_to_last x).
Proof.
  unfold cols_from_1, cols_to_last, rows_from_1, rows_to_last, t3map.
  repeat split; rewrite !map_map; apply map_ext; intros img.
  - rewrite !map_map. apply map_ext. intros row. apply tl_map.
  - rewrite !map_map. apply map_ext. intros row. apply removelast_map.
  - apply tl_map.
  - apply removelast_map.
Qed.

Lemma map2_map_r {A B B' C : Type} (f : A -> B' -> C) (g : B -> B')
      (a : list A) (b : list B) :
  map2 f a (map g b) = map2 (fun x y => f x (g y)) a b.
Proof.
  revert b. induction a as [|x a IH]; intros [|y b]; try reflexivity.
  cbn [map map2]. now rewrite IH.
Qed.

Lemma t3map2_t3map_r {A B B' C : Type} (f : A -> B' -> C) (g : B -> B')
      (x : list (list (list A))) (y : list (list (list B))) :
  t3map2 f x (t3map g y) = t3map2 (fun a b => f a (g b)) x y.
Proof.
  unfold t3map2, t3map. rewrite map2_map_r. apply map2_ext. intros i j.
  rewrite map2_map_r. apply map2_ext. intros r s. apply map2_map_r.
Qed.

(** The gradient loss of a residual and of its negation. *)
Lemma gradient_loss_swap
      (masked_reduction : list R -> list R -> string -> R) (self : GradientLoss)
      (p y m : list (list (list R))) :
  gradient_loss masked_reduction self y p m = gradient_loss masked_reduction self p y m.
Proof.
  unfold gradient_loss.
  assert (Hneg : t3map2 Rmult m (t3map2 Rminus y p)
                 = t3map Ropp (t3map2 Rmult m (t3map2 Rminus p y))).
  { assert (Hsw : t3map2 Rminus y p = t3map Ropp (t3map2 Rminus p y)).
    { rewrite (t3map2_flip Rminus y p), t3map_t3map2.
      apply t3map2_ext. intros a b. lra. }
    rewrite Hsw, t3map2_t3map_r, t3map_t3map2.
    apply t3map2_ext. intros a b. lra. }
  rewrite Hneg.
  destruct (slices_t3map Ropp (t3map2 Rmult m (t3map2 Rminus p y)))
    as [H1 [H2 [H3 H4]]].
  rewrite H1, H2, H3, H4.
  rewrite !t3map2_t3map, !t3map_t3map2.
  rewrite !(t3map2_ext (fun a b => Rabs (- a - - b)) (fun a b => Rabs (a - b)))
    by (intros a b; rewrite <- (Rabs_Ropp (a - b)); f_equal; lra).
  reflexivity.
Qed.

(** X27.  Both depth-map losses are symmetric in their first two arguments:
    exchanging [prediction] and [target] changes neither
    [MiDaSMSELoss.forward] nor [GradientLoss.forward]. *)
Theorem depth_map_losses_symmetric
        (masked_reduction : list R -> list R -> string -> R)
        (mse : MiDaSMSELoss) (grad : GradientLoss)
        (prediction target mask : list (list (list R))) :
  MiDaSMSELoss_forward masked_reduction mse target prediction mask
  = MiDaSMSELoss_forward masked_reduction mse prediction target mask
  /\ GradientLoss_forward masked_reduction grad target prediction mask
     = GradientLoss_forward masked_reduction grad prediction target mask.
Proof.
  split.
  - unfold MiDaSMSELoss_forward.
    rewrite (t3map2_flip _ target prediction).
    rewrite (t3map2_ext (fun b a => (a - b) ^ 2) (fun p t => (p - t) ^ 2))
      by (intros a b; ring).
    reflexivity.
  - unfold GradientLoss_forward.
    apply (fold_left_sum_ext
             (fun scale => gradient_loss masked_reduction grad
                             (strided (2 ^ scale) target) (strided (2 ^ scale) prediction)
                             (strided (2 ^ scale) mask))
             (fun scale => gradient_loss masked_reduction grad
                             (strided (2 ^ scale) prediction) (strided (2 ^ scale) target)
                             (strided (2 ^ scale) mask))).
    intros k. apply gradient_loss_swap.
Qed.
